(** * watch: change detection over a directory tree

    A shallow embedding of the Go program [concurrency/ex7/watch.go] and of
    its later revision, which bounds the number of concurrent hash
    computations with a buffered channel.

    - [Hashed], [HashedEqual], [CompareFileSets]: the snapshot differ;
    - [Hash]: the per-file fingerprint, over a model of SHA-1;
    - [Files]: the enumerator, over a model of [filepath.Walk];
    - [HashAll]: the snapshot builder, as an interleaving semantics of its
      goroutines. *)

From Stdlib Require Import ZArith Lia.
From stdpp Require Import gmap strings list fin_maps.

Open Scope Z_scope.
Open Scope string_scope.
Open Scope list_scope.

(** ** Run-time faults

    Go code that dereferences a nil pointer or indexes a slice out of range
    panics.  Code that can do so lives in [run]. *)

Inductive fault : Type :=
| NilDereference
| IndexOutOfRange.

Inductive run (A : Type) : Type :=
| Ret (a : A)
| Panic (f : fault).
Arguments Ret {A} a.
Arguments Panic {A} f.

#[global] Instance run_ret : MRet run := λ A a, Ret a.
#[global] Instance run_bind : MBind run := λ A B k m,
  match m with
  | Ret a => k a
  | Panic f => Panic f
  end.

(** ** Data model *)

(** [type Hashed struct { Path string; Hash []byte; Err error }].
    A byte is an integer in [0, 256); a slice is the list of its elements
    (the program only takes [len] and indexes, so a nil slice and an empty
    one are the same list); an [error] value is [None] for nil and otherwise
    carries its message. *)
Module Hashed.
Record t : Type := mk {
  Path : string;
  Hash : list Z;
  Err : option string;
}.
End Hashed.
Abbreviation Hashed := Hashed.t.

(** [*Hashed]: [None] is the nil pointer. *)
Abbreviation HashedPtr := (option Hashed).

(** [type FileSet map[string]*Hashed]. *)
Abbreviation FileSet := (gmap string HashedPtr).

Definition is_nil (p : HashedPtr) : bool :=
  match p with
  | None => true
  | Some _ => false
  end.

(** [p.Field] on a pointer. *)
Definition deref (p : HashedPtr) : run Hashed :=
  match p with
  | Some h => Ret h
  | None => Panic NilDereference
  end.

(** [s[i]] on a slice. *)
Definition index (s : list Z) (i : nat) : run Z :=
  match s !! i with
  | Some b => Ret b
  | None => Panic IndexOutOfRange
  end.

Definition err_not_nil (e : option string) : bool :=
  match e with
  | Some _ => true
  | None => false
  end.

(** ** HashedEqual *)

(** The loop [for i := 0; i < len(before.Hash); i++ { ... }]; [n] is the
    number of iterations still to run, [len(before.Hash) - i]. *)
Fixpoint HashedEqual_loop (bh ah : list Z) (i n : nat) : run bool :=
  match n with
  | O => Ret true
  | S n' =>
      x ← index bh i;
      y ← index ah i;
      if negb (x =? y)%Z then Ret false
      else HashedEqual_loop bh ah (S i) n'
  end.

Definition HashedEqual (before after : HashedPtr) : run bool :=
  if is_nil before || is_nil after then
    Ret (is_nil before && is_nil after)
  else
    b ← deref before;
    a ← deref after;
    if negb (String.eqb (Hashed.Path b) (Hashed.Path a)) then Ret false
    else
      let be := err_not_nil (Hashed.Err b) in
      let ae := err_not_nil (Hashed.Err a) in
      if be || ae then Ret (Bool.eqb be ae)
      else if negb (length (Hashed.Hash b) =? length (Hashed.Hash a))%nat
      then Ret false
      else HashedEqual_loop (Hashed.Hash b) (Hashed.Hash a) 0
             (length (Hashed.Hash b)).

(** ** CompareFileSets *)

(** [for bp, bh := range before { switch ah, has := after[bp]; {...} }].
    Go leaves the iteration order of a map unspecified: the loop is run on
    the entries in the order [bl] in which [range] happens to yield them. *)
Fixpoint range_before (bl : list (string * HashedPtr)) (after : FileSet)
    (edited deleted : list string) : run (list string * list string) :=
  match bl with
  | [] => Ret (edited, deleted)
  | (bp, bh) :: rest =>
      match after !! bp with
      | None => range_before rest after edited (deleted ++ [bp])
      | Some ah =>
          eq ← HashedEqual bh ah;
          if negb eq then range_before rest after (edited ++ [bp]) deleted
          else range_before rest after edited deleted
      end
  end.

(** [for ap := range after { if _, has := before[ap]; !has {...} }]. *)
Fixpoint range_after (al : list (string * HashedPtr)) (before : FileSet)
    (added : list string) : list string :=
  match al with
  | [] => added
  | (ap, _) :: rest =>
      match before !! ap with
      | None => range_after rest before (added ++ [ap])
      | Some _ => range_after rest before added
      end
  end.

(** The results, in the order of the Go signature:
    [(added, edited, deleted)]. *)
Definition CompareFileSets_on (bl al : list (string * HashedPtr))
    (before after : FileSet) : run (list string * list string * list string) :=
  '(edited, deleted) ← range_before bl after [] [];
  let added := range_after al before [] in
  Ret (added, edited, deleted).

(** [range] yields every entry of the map once, in some order. *)
Definition range_of (m : FileSet) (l : list (string * HashedPtr)) : Prop :=
  l ≡ₚ map_to_list m.

(** One run of the program: both loops take the entries in the order of
    [map_to_list]. *)
Definition CompareFileSets (before after : FileSet)
  : run (list string * list string * list string) :=
  CompareFileSets_on (map_to_list before) (map_to_list after) before after.

(** ** The equality rule of the specification

    "Two fingerprints are equal iff (a) both are non-failed and their
    digests are byte-for-byte identical, or (b) both are failed." *)

Definition failed (h : Hashed) : Prop := Hashed.Err h ≠ None.

Definition rule_equal (b a : Hashed) : Prop :=
  (¬ failed b ∧ ¬ failed a ∧ Hashed.Hash b = Hashed.Hash a)
  ∨ (failed b ∧ failed a).

#[global] Instance failed_dec h : Decision (failed h).
Proof. unfold failed. apply _. Defined.

#[global] Instance rule_equal_dec b a : Decision (rule_equal b a).
Proof. unfold rule_equal. apply _. Defined.

(** The value [HashedEqual] returns; [HashedEqual_returns] shows that it
    always returns one. *)
Definition hashed_eqb (before after : HashedPtr) : bool :=
  match HashedEqual before after with
  | Ret r => r
  | Panic _ => false
  end.

(** What "Edited", "Deleted" and "Added" mean for a path, on the maps. *)
Definition is_edited (before after : FileSet) (p : string) : Prop :=
  ∃ bh ah, before !! p = Some bh ∧ after !! p = Some ah
           ∧ hashed_eqb bh ah = false.

Definition is_deleted (before after : FileSet) (p : string) : Prop :=
  is_Some (before !! p) ∧ after !! p = None.

Definition is_added (before after : FileSet) (p : string) : Prop :=
  before !! p = None ∧ is_Some (after !! p).

(** The first sentence of the equality claim, for one comparison and one
    path: the path is Edited iff its two fingerprints are unequal under
    [rule_equal]. *)
Definition edited_iff_rule (bl al : list (string * HashedPtr))
    (before after : FileSet) (p : string) : Prop :=
  ∀ bh ah,
    before !! p = Some (Some bh) → after !! p = Some (Some ah) →
    ∃ added edited deleted,
      CompareFileSets_on bl al before after = Ret (added, edited, deleted)
      ∧ (p ∈ edited ↔ ¬ rule_equal bh ah).

(** The entries that each loop appends, as filters of the range. *)
Definition edited_entry (after : FileSet) (x : string * HashedPtr) : bool :=
  match after !! x.1 with
  | Some ah => negb (hashed_eqb x.2 ah)
  | None => false
  end.

Definition deleted_entry (after : FileSet) (x : string * HashedPtr) : bool :=
  match after !! x.1 with
  | Some _ => false
  | None => true
  end.

Definition edited_of (after : FileSet) (bl : list (string * HashedPtr))
  : list string :=
  (filter (λ x, edited_entry after x = true) bl).*1.

Definition deleted_of (after : FileSet) (bl : list (string * HashedPtr))
  : list string :=
  (filter (λ x, deleted_entry after x = true) bl).*1.

Definition added_of (before : FileSet) (al : list (string * HashedPtr))
  : list string :=
  (filter (λ x, deleted_entry before x = true) al).*1.

(** The paths present in both snapshots with equal fingerprints, by the
    rule of the specification ([rule_equal]: the same failed state and,
    when not failed, the same digest bytes).  Nothing of [HashedEqual]
    enters this definition. *)
Definition unchanged_entry (after : FileSet) (x : string * HashedPtr) : bool :=
  match x.2, after !! x.1 with
  | Some bh, Some (Some ah) => bool_decide (rule_equal bh ah)
  | _, _ => false
  end.

Definition unchanged (before after : FileSet) : gset string :=
  dom (filter (λ x, unchanged_entry after x = true) before).

(** Sample snapshots.  In [sample_before] and [sample_after] every
    fingerprint carries the path it is filed under, as [HashAll] builds
    them; [moved_before] and [moved_after] file under ["f"] two
    fingerprints of the same content taken at different paths, which no
    call of [HashAll] returns. *)
Definition sample_before : FileSet :=
  {[ "f1" := Some (Hashed.mk "f1" [1; 2] None);
     "f2" := Some (Hashed.mk "f2" [] (Some "permission denied"));
     "f3" := Some (Hashed.mk "f3" [7] None) ]}.

Definition sample_after : FileSet :=
  {[ "f1" := Some (Hashed.mk "f1" [1; 3] None);
     "f2" := Some (Hashed.mk "f2" [] (Some "input/output error"));
     "f4" := Some (Hashed.mk "f4" [7] None) ]}.

Definition moved_before : FileSet :=
  {[ "f" := Some (Hashed.mk "a" [1] None) ]}.

Definition moved_after : FileSet :=
  {[ "f" := Some (Hashed.mk "b" [1] None) ]}.

(** ** SHA-1

    [crypto/sha1] belongs to the Go standard library, not to the program.
    It is modelled after FIPS 180-4, on 32-bit words held in [Z] with the
    wrap-around written out. *)
Module sha1.

Definition mask32 : Z := 0xffffffff.

Definition add32 (x y : Z) : Z := Z.land (x + y) mask32.

Definition not32 (x : Z) : Z := Z.lxor x mask32.

(** [bits.RotateLeft32(x, n)]. *)
Definition rotl (x n : Z) : Z :=
  Z.land (Z.lor (Z.shiftl x n) (Z.shiftr x (32 - n))) mask32.

(** The [n] low bytes of [x], most significant first. *)
Fixpoint be_bytes (n : nat) (x : Z) : list Z :=
  match n with
  | O => []
  | S n' => Z.land (Z.shiftr x (8 * Z.of_nat n')) 0xff :: be_bytes n' x
  end.

(** The message, a 1 bit, 0 bits up to 56 bytes modulo 64, and the
    length of the message in bits on 64 bits. *)
Definition pad (msg : list Z) : list Z :=
  let len := Z.of_nat (length msg) in
  msg ++ [0x80] ++ replicate (Z.to_nat ((55 - len) mod 64)) 0
      ++ be_bytes 8 (8 * len).

(** Big-endian 32-bit words of a byte string. *)
Fixpoint words (fuel : nat) (bs : list Z) : list Z :=
  match fuel, bs with
  | S fuel', b0 :: b1 :: b2 :: b3 :: rest =>
      Z.lor (Z.shiftl b0 24) (Z.lor (Z.shiftl b1 16)
        (Z.lor (Z.shiftl b2 8) b3)) :: words fuel' rest
  | _, _ => []
  end.

(** The message schedule: [w] holds the words computed so far, and [n]
    more are appended,
    [w(t) = rotl(w(t-3) xor w(t-8) xor w(t-14) xor w(t-16), 1)]. *)
Fixpoint schedule (n : nat) (w : list Z) : list Z :=
  match n with
  | O => w
  | S n' =>
      let t := length w in
      let at_ k := nth (t - k) w 0 in
      let x := Z.lxor (Z.lxor (at_ 3%nat) (at_ 8%nat))
                 (Z.lxor (at_ 14%nat) (at_ 16%nat)) in
      schedule n' (w ++ [rotl x 1])
  end.

Definition f (t : nat) (b c d : Z) : Z :=
  if (t <? 20)%nat then Z.lor (Z.land b c) (Z.land (not32 b) d)
  else if (t <? 40)%nat then Z.lxor (Z.lxor b c) d
  else if (t <? 60)%nat then
    Z.lor (Z.lor (Z.land b c) (Z.land b d)) (Z.land c d)
  else Z.lxor (Z.lxor b c) d.

Definition K (t : nat) : Z :=
  if (t <? 20)%nat then 0x5A827999
  else if (t <? 40)%nat then 0x6ED9EBA1
  else if (t <? 60)%nat then 0x8F1BBCDC
  else 0xCA62C1D6.

Definition state : Type := Z * Z * Z * Z * Z.

Definition init : state :=
  (0x67452301, 0xEFCDAB89, 0x98BADCFE, 0x10325476, 0xC3D2E1F0).

Definition round (w : list Z) (s : state) (t : nat) : state :=
  let '(a, b, c, d, e) := s in
  let tmp := add32 (add32 (add32 (add32 (rotl a 5) (f t b c d)) e)
                      (nth t w 0)) (K t) in
  (tmp, a, rotl b 30, c, d).

(** One 64-byte block. *)
Definition block (h : state) (chunk : list Z) : state :=
  let w := schedule 64 (words 16 chunk) in
  let '(a, b, c, d, e) := fold_left (round w) (seq 0 80) h in
  let '(h0, h1, h2, h3, h4) := h in
  (add32 h0 a, add32 h1 b, add32 h2 c, add32 h3 d, add32 h4 e).

Fixpoint blocks (n : nat) (h : state) (bs : list Z) : state :=
  match n with
  | O => h
  | S n' => blocks n' (block h (take 64 bs)) (drop 64 bs)
  end.

(** The 20-byte digest of a message. *)
Definition sum (msg : list Z) : list Z :=
  let padded := pad msg in
  let '(h0, h1, h2, h3, h4) :=
    blocks (length padded / 64) init padded in
  be_bytes 4 h0 ++ be_bytes 4 h1 ++ be_bytes 4 h2 ++ be_bytes 4 h3
    ++ be_bytes 4 h4.

End sha1.

(** Lower-case hexadecimal, two digits per byte, as [%x] prints a digest. *)
Definition hex_digit (d : Z) : string :=
  String.substring (Z.to_nat d) 1 "0123456789abcdef".

Fixpoint hex (bs : list Z) : string :=
  match bs with
  | [] => ""
  | b :: rest => hex_digit (b / 16) +:+ hex_digit (b mod 16) +:+ hex rest
  end.

(** The bytes of an ASCII string. *)
Definition bytes_of (s : string) : list Z :=
  (λ c, Z.of_N (Ascii.N_of_ascii c)) <$> String.list_ascii_of_string s.

(** ** Hash

    The file system is outside the program.  [os.Open] either fails with an
    error or yields a file; reading a file delivers some bytes and ends at
    end of file or with an error. *)
Record File : Type := mkFile {
  delivered : list Z;
  read_error : option string;
}.

Inductive open_result : Type :=
| OpenError (err : string)
| Opened (f : File).

(** [h := sha1.New()]: a digest in progress is the bytes written to it;
    [h.Sum(nil)] is the digest of these bytes. *)
Definition sha1_New : list Z := [].

(** [io.Copy(h, f)] writes to [h] whatever [f] delivers, up to end of file
    or the first error; it returns the error, if any. *)
Definition io_Copy (h : list Z) (f : File) : list Z * option string :=
  (h ++ delivered f, read_error f).

Definition Hash (path : string) (opened : open_result) : HashedPtr :=
  match opened with
  | OpenError err => Some (Hashed.mk path [] (Some err))
  | Opened f =>
      let h := sha1_New in
      let '(h, err) := io_Copy h f in
      match err with
      | Some err => Some (Hashed.mk path [] (Some err))
      | None => Some (Hashed.mk path (sha1.sum h) None)
      end
  end.

(** ** Files

    [filepath.Walk], [os.Lstat] and the file modes belong to the Go
    standard library; they are modelled after the library the course
    installs (Go 1.13). *)

(** [os.FileMode]: the type bits. *)
Definition ModeDir : Z := Z.shiftl 1 31.
Definition ModeSymlink : Z := Z.shiftl 1 27.
Definition ModeDevice : Z := Z.shiftl 1 26.
Definition ModeNamedPipe : Z := Z.shiftl 1 25.
Definition ModeSocket : Z := Z.shiftl 1 24.
Definition ModeCharDevice : Z := Z.shiftl 1 21.
Definition ModeIrregular : Z := Z.shiftl 1 19.

Definition ModeType : Z :=
  Z.lor ModeDir (Z.lor ModeSymlink (Z.lor ModeNamedPipe (Z.lor ModeSocket
    (Z.lor ModeDevice (Z.lor ModeCharDevice ModeIrregular))))).

(** [os.FileInfo], as far as the program looks at it. *)
Record FileInfo : Type := mkInfo { Mode : Z }.

Definition IsDir (info : FileInfo) : bool :=
  negb (Z.land (Mode info) ModeDir =? 0)%Z.

(** What the file system holds at a path for which [os.Lstat] succeeds:
    the mode, and for a directory the outcome of reading it, an error or
    the names in it, each with what [os.Lstat] answers for it, an error
    ([inl]) or an entry ([inr]). *)
#[local] Unset Elimination Schemes.
Inductive entry : Type :=
| Entry (mode : Z) (read_err : option string)
    (names : list (string * (string + entry))).

#[local] Set Elimination Schemes.

Abbreviation lstat_result := (string + entry)%type.

(** What the program prints: the line
    [fmt.Printf("ERROR: unable to access %q\n", path)], kept by its
    argument. *)
Inductive output : Type :=
| UnableToAccess (path : string).

#[global] Instance UnableToAccess_inj : Inj (=) (=) UnableToAccess.
Proof. by intros p q [= ->]. Defined.

(** The variables a run of [Files] acts on: the slice [files] that the
    closure captures, and standard output. *)
Record world : Type := mkWorld {
  files : list string;
  stdout : list output;
}.

(** Computations on the [world] that may panic. *)
Definition io (A : Type) : Type := world → run (A * world).

#[global] Instance io_ret : MRet io := λ A a w, Ret (a, w).
#[global] Instance io_bind : MBind io := λ A B k m w,
  match m w with
  | Ret (a, w') => k a w'
  | Panic f => Panic f
  end.

Definition Printf_unable_to_access (path : string) : io unit :=
  λ w, Ret (tt, mkWorld (files w) (stdout w ++ [UnableToAccess path])).

Definition append_files (path : string) : io unit :=
  λ w, Ret (tt, mkWorld (files w ++ [path]) (stdout w)).

(** [info.Mode()] on an interface value that may be nil. *)
Definition info_Mode (info : option FileInfo) : io Z :=
  λ w, match info with
       | Some i => Ret (Mode i, w)
       | None => Panic NilDereference
       end.

(** The errors a [WalkFunc] returns: nil is [None]. *)
Inductive walk_error : Type :=
| SkipDir
| OtherError (msg : string).

Definition is_SkipDir (e : option walk_error) : bool :=
  match e with
  | Some SkipDir => true
  | _ => false
  end.

Definition WalkFunc : Type :=
  string → option FileInfo → option string → io (option walk_error).

(** The function literal that [Files] passes to [filepath.Walk]. *)
Definition Files_walkFn : WalkFunc := λ path info err,
  if err_not_nil err then
    _ ← Printf_unable_to_access path;
    mret None
  else
    mode ← info_Mode info;
    if negb (Z.land mode ModeType =? 0)%Z then mret None
    else
      _ ← append_files path;
      mret None.

Section Walk.
(** [filepath.Join], for a directory and a name in it. *)
Variable Join : string → string → string.
Variable walkFn : WalkFunc.

(** The loop [for _, name := range names { ... }] of [walk], which
    descends into the entries of a directory. *)
Definition range_names (walk : string → entry → io (option walk_error))
    (path : string)
  : list (string * lstat_result) → io (option walk_error) :=
  fix range_names (ns : list (string * lstat_result)) :=
    match ns with
    | [] => mret None
    | (name, child) :: rest =>
        let filename := Join path name in
        match child with
        | inl err =>
            r ← walkFn filename None (Some err);
            if bool_decide (r ≠ None) && negb (is_SkipDir r)
            then mret r
            else range_names rest
        | inr c =>
            r ← walk filename c;
            if bool_decide (r ≠ None)
               && (negb (let 'Entry cm _ _ := c in IsDir (mkInfo cm))
                   || negb (is_SkipDir r))
            then mret r
            else range_names rest
        end
    end.

(** [walk(path, info, walkFn)] of [path/filepath]. *)
Fixpoint walk (path : string) (e : entry) : io (option walk_error) :=
  match e with
  | Entry mode read_err names =>
      let info := mkInfo mode in
      if negb (IsDir info) then walkFn path (Some info) None
      else
        err1 ← walkFn path (Some info) read_err;
        if err_not_nil read_err || bool_decide (err1 ≠ None) then mret err1
        else range_names walk path names
  end.

(** [filepath.Walk(root, walkFn)]; [found] is what [os.Lstat(root)]
    answers. *)
Definition Walk (root : string) (found : lstat_result)
  : io (option walk_error) :=
  err ← match found with
        | inl err => walkFn root None (Some err)
        | inr e => walk root e
        end;
  if is_SkipDir err then mret None else mret err.
End Walk.

(** The loop [for _, path := range flag.Args() { filepath.Walk(...) }];
    the error that [Walk] returns is dropped. *)
Fixpoint Files_range (Join : string → string → string)
    (lstat : string → lstat_result) (args : list string) : io unit :=
  match args with
  | [] => mret tt
  | path :: rest =>
      _ ← Walk Join Files_walkFn path (lstat path);
      Files_range Join lstat rest
  end.

(** [Files]: [args] is [flag.Args()], [lstat] what the file system holds
    at each of them.  Returned are the slice [files] and what was
    printed. *)
Definition Files (Join : string → string → string)
    (lstat : string → lstat_result) (args : list string)
  : run (list string * list output) :=
  match Files_range Join lstat args (mkWorld [] []) with
  | Ret (_, w) => Ret (files w, stdout w)
  | Panic f => Panic f
  end.

(** *** The enumerator of the specification

    The regular files reached by recursive descent, and the entries that
    could not be accessed, both in traversal order. *)

Definition is_regular (mode : Z) : bool := (Z.land mode ModeType =? 0)%Z.

Definition below {A} (Join : string → string → string)
    (at_path : string → entry → list A) (unreadable : string → list A)
    (path : string) : list (string * lstat_result) → list A :=
  fix below (ns : list (string * lstat_result)) :=
    match ns with
    | [] => []
    | (name, inl _) :: rest => unreadable (Join path name) ++ below rest
    | (name, inr c) :: rest => at_path (Join path name) c ++ below rest
    end.

Fixpoint regular_files (Join : string → string → string)
    (path : string) (e : entry) : list string :=
  match e with
  | Entry mode read_err names =>
      if IsDir (mkInfo mode) then
        match read_err with
        | Some _ => []
        | None => below Join (regular_files Join) (λ _, []) path names
        end
      else if is_regular mode then [path]
      else []
  end.

Fixpoint inaccessible (Join : string → string → string)
    (path : string) (e : entry) : list string :=
  match e with
  | Entry mode read_err names =>
      if IsDir (mkInfo mode) then
        match read_err with
        | Some _ => [path]
        | None => below Join (inaccessible Join) (λ p, [p]) path names
        end
      else []
  end.

Definition regular_files_at (Join : string → string → string)
    (path : string) (found : lstat_result) : list string :=
  match found with
  | inl _ => []
  | inr e => regular_files Join path e
  end.

Definition inaccessible_at (Join : string → string → string)
    (path : string) (found : lstat_result) : list string :=
  match found with
  | inl _ => [path]
  | inr e => inaccessible Join path e
  end.

(** Recursive descent: from [path], where [os.Lstat] answers [found], the
    walk reaches the entry itself and, if it is a directory that can be
    read, what is reached from the entries in it. *)
Inductive reached (Join : string → string → string)
  : string → lstat_result → string → lstat_result → Prop :=
| reached_here path found : reached Join path found path found
| reached_below path mode names name child path' found' :
    IsDir (mkInfo mode) = true →
    (name, child) ∈ names →
    reached Join (Join path name) child path' found' →
    reached Join path (inr (Entry mode None names)) path' found'.

(** An entry is a regular file: [os.Lstat] succeeds on it and its mode has
    no type bit. *)
Definition regular_entry (found : lstat_result) : Prop :=
  match found with
  | inl _ => False
  | inr (Entry mode _ _) => is_regular mode = true
  end.

(** An entry cannot be accessed: [os.Lstat] fails on it, or it is a
    directory that cannot be read. *)
Definition no_access (found : lstat_result) : Prop :=
  match found with
  | inl _ => True
  | inr (Entry mode read_err _) =>
      IsDir (mkInfo mode) = true ∧ read_err ≠ None
  end.

(** A sample tree: three regular files, a subdirectory holding one
    regular file, and an entry that cannot be accessed. *)
Definition slash_join (dir name : string) : string := dir +:+ "/" +:+ name.

(** The permission bits are 0755 = 493, 0644 = 420 and 0600 = 384. *)
Definition sample_root : entry :=
  Entry (Z.lor ModeDir 493) None
    [ ("a", inr (Entry 420 None []));
      ("b", inr (Entry 420 None []));
      ("c", inl "permission denied");
      ("d", inr (Entry (Z.lor ModeDir 493) None
                   [ ("e", inr (Entry 420 None [])) ]));
      ("f", inr (Entry 384 None [])) ].

Definition sample_lstat (path : string) : lstat_result :=
  if String.eqb path "root" then inr sample_root
  else inl "no such file or directory".

(** ** HashAll

    [HashAll] starts one goroutine per path and waits for all of them.  It
    is modelled by the interleavings of its goroutines: a [state] holds the
    place the main goroutine is at, the goroutines started and not yet
    ended with the place each is at, and the variables they share.

    The program has two revisions of [HashAll].  The later one creates
    [sem := make(chan struct{}, 100)], sends to it before every [go]
    statement and receives from it in a deferred call; [ex7/watch.go] has
    none of these three lines.  [gate] is the capacity of [sem], or [None]
    for the revision without it. *)

Definition HashAll_ex7 : option nat := None.
Definition HashAll_bounded : option nat := Some 100%nat.

(** Where the main goroutine is; [todo] are the paths that
    [range Files()] has still to yield. *)
Inductive main_pc : Type :=
| Range (todo : list string)             (* at the head of the loop *)
| Send (path : string) (todo : list string)  (* before [sem <- struct{}{}] *)
| Go (path : string) (todo : list string)    (* before [go func(...)] *)
| Wait                                   (* at [wg.Wait()] *)
| Returned.                              (* after [return results] *)

(** Where a started goroutine is.  Its deferred calls run last in, first
    out: [mu.Unlock()], then [<-sem], then [wg.Done()]. *)
Inductive worker_pc : Type :=
| AtHash                                 (* before [Hash(path)] *)
| AtLock (h : HashedPtr)                 (* before [mu.Lock()] *)
| AtStore (h : HashedPtr)                (* before [results[path] = hash] *)
| AtUnlock                               (* before [mu.Unlock()] *)
| AtRelease                              (* before [<-sem] *)
| AtDone.                                (* before [wg.Done()] *)

Record state : Type := St {
  main : main_pc;
  workers : list (string * worker_pc);
  sem : nat;          (* the number of values buffered in [sem] *)
  wg : nat;           (* the counter of [wg] *)
  mu : bool;          (* whether [mu] is locked *)
  results : FileSet;
}.

Definition initial (paths : list string) : state :=
  St (Range paths) [] 0 0 false ∅.

Section HashAll.
Variable gate : option nat.
(** What the file system may answer when a path is opened and read
    during the call. *)
Variable outcome : string → open_result → Prop.

Definition after_Add (path : string) (todo : list string) : main_pc :=
  match gate with
  | Some _ => Send path todo
  | None => Go path todo
  end.

Definition after_Unlock : worker_pc :=
  match gate with
  | Some _ => AtRelease
  | None => AtDone
  end.

(** One goroutine executes one statement.  A statement that blocks
    ([sem <- struct{}{}] on a full buffer, [<-sem] on an empty one,
    [mu.Lock()] on a locked mutex, [wg.Wait()] on a non-zero counter) has
    no step until it can proceed; neither has one that would crash the
    program ([mu.Unlock()] of an unlocked mutex, [wg.Done()] on a zero
    counter). *)
Inductive step : state → state → Prop :=
| step_Add p todo ws n g m r :
    step (St (Range (p :: todo)) ws n g m r)
         (St (after_Add p todo) ws n (S g) m r)
| step_range_end ws n g m r :
    step (St (Range []) ws n g m r) (St Wait ws n g m r)
| step_send cap p todo ws n g m r :
    gate = Some cap → (n < cap)%nat →
    step (St (Send p todo) ws n g m r) (St (Go p todo) ws (S n) g m r)
| step_go p todo ws n g m r :
    step (St (Go p todo) ws n g m r)
         (St (Range todo) (ws ++ [(p, AtHash)]) n g m r)
| step_Wait ws n m r :
    step (St Wait ws n 0 m r) (St Returned ws n 0 m r)
| step_Hash o M ws1 p ws2 n g m r :
    outcome p o →
    step (St M (ws1 ++ (p, AtHash) :: ws2) n g m r)
         (St M (ws1 ++ (p, AtLock (Hash p o)) :: ws2) n g m r)
| step_Lock M ws1 p h ws2 n g r :
    step (St M (ws1 ++ (p, AtLock h) :: ws2) n g false r)
         (St M (ws1 ++ (p, AtStore h) :: ws2) n g true r)
| step_store M ws1 p h ws2 n g m r :
    step (St M (ws1 ++ (p, AtStore h) :: ws2) n g m r)
         (St M (ws1 ++ (p, AtUnlock) :: ws2) n g m (<[p := h]> r))
| step_Unlock M ws1 p ws2 n g r :
    step (St M (ws1 ++ (p, AtUnlock) :: ws2) n g true r)
         (St M (ws1 ++ (p, after_Unlock) :: ws2) n g false r)
| step_receive cap M ws1 p ws2 n g m r :
    gate = Some cap →
    step (St M (ws1 ++ (p, AtRelease) :: ws2) (S n) g m r)
         (St M (ws1 ++ (p, AtDone) :: ws2) n g m r)
| step_Done M ws1 p ws2 n g m r :
    step (St M (ws1 ++ (p, AtDone) :: ws2) n (S g) m r)
         (St M (ws1 ++ ws2) n g m r).

(** The states a call of [HashAll] on [paths] can reach. *)
Definition reachable (paths : list string) (s : state) : Prop :=
  rtc step (initial paths) s.
End HashAll.

(** The goroutines at a place that satisfies [f]. *)
Fixpoint count (f : worker_pc → bool) (ws : list (string * worker_pc)) : nat :=
  match ws with
  | [] => 0
  | w :: rest => (if f w.2 then 1 else 0) + count f rest
  end.

(** A goroutine is reading and hashing its file. *)
Definition hashing (pc : worker_pc) : bool :=
  match pc with
  | AtHash => true
  | _ => false
  end.

(** A goroutine holds a slot of [sem]: its value was sent before the [go]
    statement and is not yet received. *)
Definition holds_slot (pc : worker_pc) : bool :=
  match pc with
  | AtDone => false
  | _ => true
  end.

(** A goroutine holds [mu]. *)
Definition holds_mu (pc : worker_pc) : bool :=
  match pc with
  | AtStore _ | AtUnlock => true
  | _ => false
  end.

(** The main goroutine has sent to [sem] for a goroutine it has yet to
    start. *)
Definition slot_in_hand (M : main_pc) : nat :=
  match M with
  | Go _ _ => 1
  | _ => 0
  end.

(** The main goroutine has added to [wg] for a goroutine it has yet to
    start. *)
Definition add_in_hand (M : main_pc) : nat :=
  match M with
  | Send _ _ | Go _ _ => 1
  | _ => 0
  end.

(** The paths the main goroutine has still to start a goroutine for. *)
Definition unstarted (M : main_pc) : list string :=
  match M with
  | Range todo => todo
  | Send p todo | Go p todo => p :: todo
  | Wait | Returned => []
  end.

(** The fingerprint a goroutine has computed and not yet stored. *)
Definition carried (pc : worker_pc) : option HashedPtr :=
  match pc with
  | AtLock h | AtStore h => Some h
  | _ => None
  end.

(** A goroutine has yet to store its fingerprint. *)
Definition before_store (pc : worker_pc) : bool :=
  match pc with
  | AtHash | AtLock _ | AtStore _ => true
  | _ => false
  end.

(** Reading the file failed: it could not be opened, or not be read to
    its end. *)
Definition read_fails (o : open_result) : Prop :=
  match o with
  | OpenError _ => True
  | Opened f => read_error f ≠ None
  end.

(** The statements a state is away from the end of the call, at most. *)
Definition worker_left (pc : worker_pc) : nat :=
  match pc with
  | AtHash => 6
  | AtLock _ => 5
  | AtStore _ => 4
  | AtUnlock => 3
  | AtRelease => 2
  | AtDone => 1
  end.

Definition main_left (M : main_pc) : nat :=
  match M with
  | Range todo => 9 * length todo + 2
  | Send _ todo => 9 * length todo + 10
  | Go _ todo => 9 * length todo + 9
  | Wait => 1
  | Returned => 0
  end.

Fixpoint workers_left (ws : list (string * worker_pc)) : nat :=
  match ws with
  | [] => 0
  | w :: rest => worker_left w.2 + workers_left rest
  end.

Definition steps_left (s : state) : nat :=
  (main_left (main s) + workers_left (workers s))%nat.

Definition at_receive (pc : worker_pc) : bool :=
  match pc with
  | AtRelease => true
  | _ => false
  end.

Definition at_Send (M : main_pc) : bool :=
  match M with
  | Send _ _ => true
  | _ => false
  end.

(** The counters agree with the goroutines: [wg] counts the goroutines
    started or about to be, [mu] is locked iff one goroutine is between
    [mu.Lock()] and [mu.Unlock()], and [sem] buffers one value for each
    goroutine that has not yet received from it. *)
Definition counters (gate : option nat) (s : state) : Prop :=
  wg s = (length (workers s) + add_in_hand (main s))%nat
  ∧ count holds_mu (workers s) = (if mu s then 1 else 0)%nat
  ∧ match gate with
    | Some cap =>
        sem s = (count holds_slot (workers s) + slot_in_hand (main s))%nat
        ∧ (sem s ≤ cap)%nat
    | None =>
        sem s = 0%nat ∧ count at_receive (workers s) = 0%nat
        ∧ at_Send (main s) = false
    end
  ∧ (main s = Returned → workers s = []).

(** Every path given is still to be started, or with a goroutine that has
    yet to store its fingerprint, or has a fingerprint in [results]. *)
Definition accounted (paths : list string) (s : state) : Prop :=
  ∀ p, p ∈ paths →
    p ∈ unstarted (main s)
    ∨ (∃ pc, (p, pc) ∈ workers s ∧ before_store pc = true)
    ∨ is_Some (results s !! p).

(** Every fingerprint, carried or stored, is what [Hash] returns for its
    path on an answer of the file system. *)
Definition genuine (outcome : string → open_result → Prop) (s : state)
  : Prop :=
  (∀ p pc h, (p, pc) ∈ workers s → carried pc = Some h →
             ∃ o, outcome p o ∧ h = Hash p o)
  ∧ (∀ p h, results s !! p = Some h → ∃ o, outcome p o ∧ h = Hash p o).

(** What [HashAll] returns when the file system answers the same for a
    path all through the call, [fs path]: the fingerprints of the paths,
    filed in any order ([HashAll_steady]). *)
Fixpoint HashAll_range (fs : string → open_result) (paths : list string)
    (results : FileSet) : FileSet :=
  match paths with
  | [] => results
  | path :: rest =>
      HashAll_range fs rest (<[path := Hash path (fs path)]> results)
  end.

Definition HashAll (fs : string → open_result) (paths : list string)
  : FileSet :=
  HashAll_range fs paths ∅.

Definition steady (fs : string → open_result) (p : string)
    (o : open_result) : Prop :=
  o = fs p.

(** A snapshot in which every fingerprint is non-nil and carries the path
    it is filed under. *)
Definition keyed (m : FileSet) : Prop :=
  ∀ p h, m !! p = Some h → ∃ h', h = Some h' ∧ Hashed.Path h' = p.

(** A file system on which no file can be opened, and one that answers
    anything. *)
Definition all_denied (p : string) (o : open_result) : Prop :=
  o = OpenError "permission denied".

Definition any_answer (p : string) (o : open_result) : Prop := True.

(** The first sentence of the claim about the ceiling, for one revision
    and one list of paths: in no state that the call can reach are more
    than 100 goroutines reading and hashing. *)
Definition at_most_100_hashing (gate : option nat) (paths : list string)
  : Prop :=
  ∀ s, reachable gate any_answer paths s →
       (count hashing (workers s) ≤ 100)%nat.

(** Two readings of a file give equal fingerprints: both fail, or both
    reach the end of the file with the same digest. *)
Definition same_reading (o1 o2 : open_result) : Prop :=
  (read_fails o1 ∧ read_fails o2)
  ∨ (∃ f1 f2, o1 = Opened f1 ∧ o2 = Opened f2
              ∧ read_error f1 = None ∧ read_error f2 = None
              ∧ sha1.sum (delivered f1) = sha1.sum (delivered f2)).

(** A file system on which ["a"] holds the bytes of "abc" and nothing else
    can be opened, and the same after ["a"] was rewritten. *)
Definition fs_abc (p : string) : open_result :=
  if String.eqb p "a" then Opened (mkFile (bytes_of "abc") None)
  else OpenError "no such file or directory".

Definition fs_abd (p : string) : open_result :=
  if String.eqb p "a" then Opened (mkFile (bytes_of "abd") None)
  else OpenError "no such file or directory".

(** ** main

    The loop of [main] in [watch.go] never ends; it is run on the ticks it
    has received so far.  For each tick a [poll] holds what is outside
    [main]: the time received from [time.Tick], the snapshot that
    [HashAll()] returns, and the orders that [range] takes over the two
    maps in [CompareFileSets]. *)
Record poll : Type := mkPoll {
  ts : string;
  curr : FileSet;
  range_prev : list (string * HashedPtr);
  range_curr : list (string * HashedPtr);
}.

(** The four lines [main] prints for a change, each kept by its
    argument: ["files have changed at %v"], ["\tadded: %q"],
    ["\tedited: %q"] and ["\tdeleted: %q"]. *)
Inductive watch_line : Type :=
| FilesHaveChanged (ts : string)
| AddedQ (added : list string)
| EditedQ (edited : list string)
| DeletedQ (deleted : list string).

(** [for ts := range time.Tick(time.Second) { ... }] on the ticks
    [polls], from the snapshot [prev]; [out] is what was printed before. *)
Fixpoint main_loop (prev : FileSet) (polls : list poll)
    (out : list watch_line) : run (list watch_line) :=
  match polls with
  | [] => Ret out
  | t :: rest =>
      '(added, edited, deleted) ←
        CompareFileSets_on (range_prev t) (range_curr t) prev (curr t);
      let prev := curr t in
      if (0 <? length added + length edited + length deleted)%nat then
        main_loop prev rest
          (out ++ [FilesHaveChanged (ts t); AddedQ added; EditedQ edited;
                   DeletedQ deleted])
      else main_loop prev rest out
  end.

(** [main]: [first] is what the call [prev := HashAll()] before the loop
    returns. *)
Definition watch_main (first : FileSet) (polls : list poll)
  : run (list watch_line) :=
  main_loop first polls [].

(** The orders in the polls are orders of the maps that [range] is run
    on. *)
Fixpoint ranges_ok (prev : FileSet) (polls : list poll) : Prop :=
  match polls with
  | [] => True
  | t :: rest =>
      range_of prev (range_prev t) ∧ range_of (curr t) (range_curr t)
      ∧ ranges_ok (curr t) rest
  end.

(** Two snapshots with the same keys and, at each, fingerprints that
    [HashedEqual] holds equal. *)
Definition same_snapshot (A B : FileSet) : Prop :=
  dom A = dom B
  ∧ ∀ p bh ah, A !! p = Some bh → B !! p = Some ah →
               HashedEqual bh ah = Ret true.

(** From [prev] on, every snapshot is the same as the one before it. *)
Fixpoint all_same (prev : FileSet) (polls : list poll) : Prop :=
  match polls with
  | [] => True
  | t :: rest => same_snapshot prev (curr t) ∧ all_same (curr t) rest
  end.

(** Sample polls: the tree of [sample_before] at the start, changed to
    [sample_after] at the first tick and left alone for two more. *)
Definition sample_polls : list poll :=
  [ mkPoll "12:00:01" sample_after
      (map_to_list sample_before) (map_to_list sample_after);
    mkPoll "12:00:02" sample_after
      (map_to_list sample_after) (map_to_list sample_after);
    mkPoll "12:00:03" sample_after
      (map_to_list sample_after) (map_to_list sample_after) ].

(** ** cksum

    The second program of the file, [cksum], prints the checksum of every
    file.  Its [Files] is that of [watch], word for word; its [Hash]
    returns the digest and the error apart; its [main] starts one
    goroutine per path behind a buffered channel [guard] and collects what
    they send to a buffered channel [hashesQueu]. *)
Module cksum.

(** [type Hashes struct { path string; hash []byte; err error }]. *)
Record Hashes : Type := mkHashes {
  path : string;
  hash : list Z;
  err : option string;
}.

(** [func Hash(path string) ([]byte, error)]. *)
Definition Hash (path : string) (opened : open_result)
  : list Z * option string :=
  match opened with
  | OpenError err => ([], Some err)
  | Opened f =>
      let h := sha1_New in
      let '(h, err) := io_Copy h f in
      match err with
      | Some err => ([], Some err)
      | None => (sha1.sum h, None)
      end
  end.

Definition tab : string := String (Ascii.ascii_of_nat 9) "".
Definition newline : string := String (Ascii.ascii_of_nat 10) "".

(** The body of the second loop of [main] after the receive:
    [fmt.Printf("ERROR: %s\n", evHash.err)] if the error is not nil, else
    [fmt.Printf("%x\t%s\n", evHash.hash, evHash.path)]. *)
Definition print (evHash : Hashes) : string :=
  match err evHash with
  | Some e => "ERROR: " +:+ e +:+ newline
  | None => hex (hash evHash) +:+ tab +:+ path evHash +:+ newline
  end.

(** Where the main goroutine is. *)
Inductive main_pc : Type :=
| Range (todo : list string)              (* at the head of the first loop *)
| Go (p : string) (todo : list string)    (* before [go func(...)] *)
| Receive (i : nat)                       (* at [i < filesLen] *)
| Returned.

(** Where a started goroutine is; after [<-guard] it ends. *)
Inductive worker_pc : Type :=
| AtHash                                  (* before [Hash(p)] *)
| AtSend (ev : Hashes)                    (* before [hashesQueu <- ...] *)
| AtRelease.                              (* before [<-guard] *)

Record state : Type := St {
  main : main_pc;
  workers : list (string * worker_pc);
  hashesQueu : list Hashes;   (* the values buffered, oldest first *)
  guard : nat;                (* the number of values buffered *)
  stdout : list string;
}.

Definition initial (paths : list string) : state :=
  St (Range paths) [] [] 0 [].

Section main.
Variable outcome : string → open_result → Prop.
(** [filesLen := len(files)]. *)
Variable filesLen : nat.

(** One goroutine executes one statement.  Both channels are made with
    capacity 100: a send has no step while 100 values are buffered, a
    receive none while the buffer is empty.  The receive from
    [hashesQueu], the [Printf] and [i++] are one step of the main
    goroutine, which alone prints. *)
Inductive step : state → state → Prop :=
| step_guard p todo ws q g out :
    (g < 100)%nat →
    step (St (Range (p :: todo)) ws q g out) (St (Go p todo) ws q (S g) out)
| step_go p todo ws q g out :
    step (St (Go p todo) ws q g out)
         (St (Range todo) (ws ++ [(p, AtHash)]) q g out)
| step_range_end ws q g out :
    step (St (Range []) ws q g out) (St (Receive 0) ws q g out)
| step_receive i ws ev q g out :
    (i < filesLen)%nat →
    step (St (Receive i) ws (ev :: q) g out)
         (St (Receive (S i)) ws q g (out ++ [print ev]))
| step_return i ws q g out :
    ¬ (i < filesLen)%nat →
    step (St (Receive i) ws q g out) (St Returned ws q g out)
| step_Hash o M ws1 p ws2 q g out :
    outcome p o →
    step (St M (ws1 ++ (p, AtHash) :: ws2) q g out)
         (St M (ws1 ++ (p, AtSend (mkHashes p (Hash p o).1 (Hash p o).2))
                    :: ws2) q g out)
| step_send M ws1 p ev ws2 q g out :
    (length q < 100)%nat →
    step (St M (ws1 ++ (p, AtSend ev) :: ws2) q g out)
         (St M (ws1 ++ (p, AtRelease) :: ws2) (q ++ [ev]) g out)
| step_release M ws1 p ws2 q g out :
    step (St M (ws1 ++ (p, AtRelease) :: ws2) q (S g) out)
         (St M (ws1 ++ ws2) q g out).
End main.

(** The states that [main] can reach when [Files()] returns [paths]. *)
Definition reachable (outcome : string → open_result → Prop)
    (paths : list string) (s : state) : Prop :=
  rtc (step outcome (length paths)) (initial paths) s.

(** No goroutine can take a step. *)
Definition deadlocked (outcome : string → open_result → Prop)
    (paths : list string) (s : state) : Prop :=
  ∀ s', ¬ step outcome (length paths) s s'.

(** The paths for which the main goroutine has yet to start a
    goroutine. *)
Definition unstarted (M : main_pc) : list string :=
  match M with
  | Range todo => todo
  | Go p todo => p :: todo
  | Receive _ | Returned => []
  end.

Definition in_hand (M : main_pc) : nat :=
  match M with
  | Go _ _ => 1
  | _ => 0
  end.

Definition collecting (M : main_pc) : bool :=
  match M with
  | Receive _ | Returned => true
  | _ => false
  end.

(** The values the main goroutine has received. *)
Definition received (filesLen : nat) (M : main_pc) : nat :=
  match M with
  | Receive i => i
  | Returned => filesLen
  | _ => 0
  end.

Definition unsent (pc : worker_pc) : bool :=
  match pc with
  | AtRelease => false
  | _ => true
  end.

Definition at_send (pc : worker_pc) : bool :=
  match pc with
  | AtSend _ => true
  | _ => false
  end.

(** The paths of the goroutines that have yet to send. *)
Fixpoint pending (ws : list (string * worker_pc)) : list string :=
  match ws with
  | [] => []
  | (p, pc) :: rest => if unsent pc then p :: pending rest else pending rest
  end.

(** The statements a state is away from the return, at most. *)
Definition worker_left (pc : worker_pc) : nat :=
  match pc with
  | AtHash => 3
  | AtSend _ => 2
  | AtRelease => 1
  end.

Fixpoint workers_left (ws : list (string * worker_pc)) : nat :=
  match ws with
  | [] => 0
  | w :: rest => worker_left w.2 + workers_left rest
  end.

Definition main_left (filesLen : nat) (M : main_pc) : nat :=
  match M with
  | Range todo => 5 * length todo + filesLen + 2
  | Go _ todo => 5 * length todo + filesLen + 6
  | Receive i => filesLen - i + 1
  | Returned => 0
  end.

Definition steps_left (filesLen : nat) (s : state) : nat :=
  (main_left filesLen (main s) + workers_left (workers s))%nat.

(** The counters agree with the goroutines. *)
Definition counters (filesLen : nat) (s : state) : Prop :=
  guard s = (length (workers s) + in_hand (main s))%nat
  ∧ (guard s ≤ 100)%nat
  ∧ (length (hashesQueu s) ≤ 100)%nat
  ∧ length (stdout s) = received filesLen (main s)
  ∧ filesLen = (length (unstarted (main s)) + length (pending (workers s))
                + length (hashesQueu s) + length (stdout s))%nat
  ∧ (collecting (main s) = true → (filesLen ≤ 200)%nat).

(** The main goroutine waits to send to a full [guard], and every
    goroutine started waits to send to a full [hashesQueu]. *)
Definition all_wait (s : state) : Prop :=
  (∃ p todo, main s = Range (p :: todo))
  ∧ guard s = 100%nat
  ∧ length (hashesQueu s) = 100%nat
  ∧ ∀ w, w ∈ workers s → at_send w.2 = true.

(** What a goroutine sends for a path on a steady file system. *)
Definition event (fs : string → open_result) (p : string) : Hashes :=
  mkHashes p (Hash p (fs p)).1 (Hash p (fs p)).2.

(** On a steady file system, every path given is yet to be started, with
    a goroutine that has yet to send, in the queue, or printed; and what
    is carried, queued and printed is what [Hash] returns for it. *)
Definition accounted (fs : string → open_result) (paths : list string)
    (s : state) : Prop :=
  (∀ p ev, (p, AtSend ev) ∈ workers s → ev = event fs p)
  ∧ ∃ queued printed,
      hashesQueu s = event fs <$> queued
      ∧ stdout s = (λ p, print (event fs p)) <$> printed
      ∧ paths ≡ₚ unstarted (main s) ++ pending (workers s)
                 ++ queued ++ printed.

End cksum.

(** * Properties *)

(** ** HashedEqual *)

Lemma index_lookup (s : list Z) i x : s !! i = Some x → index s i = Ret x.
Proof. unfold index. by intros ->. Qed.

Lemma HashedEqual_loop_drop (bh ah : list Z) n i :
  (i + n = length bh)%nat → length bh = length ah →
  HashedEqual_loop bh ah i n = Ret (bool_decide (drop i bh = drop i ah)).
Proof.
  revert i. induction n as [|n IH]; intros i Hi Hlen; simpl.
  - rewrite !drop_ge by lia. by rewrite bool_decide_eq_true_2.
  - destruct (lookup_lt_is_Some_2 bh i) as [x Hx]; [lia|].
    destruct (lookup_lt_is_Some_2 ah i) as [y Hy]; [lia|].
    rewrite (index_lookup _ _ _ Hx), (index_lookup _ _ _ Hy). simpl.
    rewrite (drop_S _ _ _ Hx), (drop_S _ _ _ Hy).
    destruct (Z.eqb_spec x y) as [->|Hne]; simpl.
    + rewrite IH by lia. f_equal. apply bool_decide_ext.
      split; [by intros ->|congruence].
    + f_equal. symmetry. apply bool_decide_eq_false_2. congruence.
Qed.

Lemma HashedEqual_loop_eq (bh ah : list Z) :
  length bh = length ah →
  HashedEqual_loop bh ah 0 (length bh) = Ret (bool_decide (bh = ah)).
Proof. intros H. by rewrite HashedEqual_loop_drop. Qed.

(** On two non-nil pointers [HashedEqual] decides: same path, and the
    rule of the specification. *)
Lemma HashedEqual_Some (b a : Hashed) :
  HashedEqual (Some b) (Some a)
  = Ret (bool_decide (Hashed.Path b = Hashed.Path a ∧ rule_equal b a)).
Proof.
  destruct b as [pb hb eb], a as [pa ha ea].
  unfold HashedEqual; simpl.
  destruct (String.eqb_spec pb pa) as [Hp|Hp]; simpl.
  2: { f_equal. symmetry. apply bool_decide_eq_false_2. tauto. }
  destruct eb as [eb|], ea as [ea|]; simpl; f_equal.
  - symmetry. apply bool_decide_eq_true_2. split; [done|]. by right.
  - symmetry. apply bool_decide_eq_false_2.
    unfold rule_equal, failed; simpl. intros [_ [(H & _ & _)|[_ H]]]; auto.
  - symmetry. apply bool_decide_eq_false_2.
    unfold rule_equal, failed; simpl. intros [_ [(_ & H & _)|[H _]]]; auto.
  - destruct (Nat.eqb_spec (length hb) (length ha)) as [Hl|Hl]; simpl.
    + rewrite HashedEqual_loop_eq by done. f_equal.
      apply bool_decide_ext. unfold rule_equal, failed; simpl.
      split; [intros ->; split; [done|left]; by auto|].
      intros [_ [(_ & _ & ?)|[? _]]]; done.
    + f_equal. symmetry. apply bool_decide_eq_false_2.
      intros [_ [(_ & _ & Heq)|[? _]]]; [|done]. simpl in Heq. by subst.
Qed.

Lemma HashedEqual_returns (before after : HashedPtr) :
  HashedEqual before after = Ret (hashed_eqb before after).
Proof.
  unfold hashed_eqb. destruct before as [b|], after as [a|]; try done.
  by rewrite HashedEqual_Some.
Qed.

Lemma hashed_eqb_Some (b a : Hashed) :
  hashed_eqb (Some b) (Some a)
  = bool_decide (Hashed.Path b = Hashed.Path a ∧ rule_equal b a).
Proof. unfold hashed_eqb. by rewrite HashedEqual_Some. Qed.

Lemma rule_equal_sym (b a : Hashed) : rule_equal b a ↔ rule_equal a b.
Proof. unfold rule_equal. split; intros [(?&?&?)|[??]]; auto. Qed.

Lemma rule_equal_refl (b : Hashed) : rule_equal b b.
Proof. unfold rule_equal. destruct (decide (failed b)); auto. Qed.

Lemma hashed_eqb_sym (b a : HashedPtr) : hashed_eqb b a = hashed_eqb a b.
Proof.
  destruct b as [b|], a as [a|]; try done.
  rewrite !hashed_eqb_Some. apply bool_decide_ext.
  rewrite (rule_equal_sym b a). split; intros [? ?]; auto.
Qed.

Lemma hashed_eqb_refl (b : HashedPtr) : hashed_eqb b b = true.
Proof.
  destruct b as [b|]; [|done].
  rewrite hashed_eqb_Some. apply bool_decide_eq_true_2.
  split; [done|apply rule_equal_refl].
Qed.

(** ** CompareFileSets: the loops as filters *)

Lemma filter_fst_cons (f : string * HashedPtr → bool) x rest :
  (filter (λ y, f y = true) (x :: rest)).*1
  = if f x then x.1 :: (filter (λ y, f y = true) rest).*1
    else (filter (λ y, f y = true) rest).*1.
Proof.
  rewrite filter_cons. destruct (f x).
  - by rewrite decide_True.
  - by rewrite decide_False.
Qed.

Lemma range_before_eq bl after edited deleted :
  range_before bl after edited deleted
  = Ret (edited ++ edited_of after bl, deleted ++ deleted_of after bl).
Proof.
  revert edited deleted.
  induction bl as [|[bp bh] rest IH]; intros edited deleted.
  - unfold edited_of, deleted_of. simpl. by rewrite !app_nil_r.
  - unfold edited_of, deleted_of in *. rewrite !filter_fst_cons.
    unfold edited_entry at 1, deleted_entry at 1. simpl.
    destruct (after !! bp) as [ah|].
    + rewrite HashedEqual_returns. simpl.
      destruct (hashed_eqb bh ah); simpl; rewrite IH; [done|].
      by rewrite <-app_assoc.
    + rewrite IH. by rewrite <-app_assoc.
Qed.

Lemma range_after_eq al before added :
  range_after al before added = added ++ added_of before al.
Proof.
  revert added. induction al as [|[ap ah] rest IH]; intros added.
  - unfold added_of. simpl. by rewrite app_nil_r.
  - unfold added_of in *. rewrite filter_fst_cons.
    unfold deleted_entry at 1. simpl.
    destruct (before !! ap) as [bh|]; rewrite IH; [done|].
    by rewrite <-app_assoc.
Qed.

Lemma CompareFileSets_on_eq bl al before after :
  CompareFileSets_on bl al before after
  = Ret (added_of before al, edited_of after bl, deleted_of after bl).
Proof.
  unfold CompareFileSets_on. rewrite range_before_eq. simpl.
  by rewrite range_after_eq.
Qed.

Lemma range_of_elem (m : FileSet) l p h :
  range_of m l → (p, h) ∈ l ↔ m !! p = Some h.
Proof. unfold range_of. intros ->. apply elem_of_map_to_list. Qed.

Lemma range_of_NoDup (m : FileSet) l : range_of m l → NoDup l.*1.
Proof. unfold range_of. intros ->. apply NoDup_fst_map_to_list. Qed.

Lemma NoDup_filter_fst (P : string * HashedPtr → Prop)
    `{∀ x, Decision (P x)} (l : list (string * HashedPtr)) :
  NoDup l.*1 → NoDup (filter P l).*1.
Proof.
  intros Hnd. eapply sublist_NoDup; [exact Hnd|].
  apply fmap_sublist, sublist_filter.
Qed.

Lemma elem_of_edited_of before after bl p :
  range_of before bl → p ∈ edited_of after bl ↔ is_edited before after p.
Proof.
  intros Hr. unfold edited_of, is_edited. rewrite list_elem_of_fmap. split.
  - intros ([q bh] & -> & Hin). apply list_elem_of_filter in Hin as [Hf Hin].
    apply (range_of_elem _ _ _ _ Hr) in Hin. unfold edited_entry in Hf.
    simpl in *. destruct (after !! q) as [ah|] eqn:Hah; [|done].
    exists bh, ah. by apply negb_true_iff in Hf.
  - intros (bh & ah & Hb & Ha & Hne). exists (p, bh). split; [done|].
    apply list_elem_of_filter. split; [|by apply (range_of_elem _ _ _ _ Hr)].
    unfold edited_entry; simpl. rewrite Ha. by apply negb_true_iff.
Qed.

Lemma elem_of_deleted_of before after bl p :
  range_of before bl → p ∈ deleted_of after bl ↔ is_deleted before after p.
Proof.
  intros Hr. unfold deleted_of, is_deleted. rewrite list_elem_of_fmap. split.
  - intros ([q bh] & -> & Hin). apply list_elem_of_filter in Hin as [Hf Hin].
    apply (range_of_elem _ _ _ _ Hr) in Hin. unfold deleted_entry in Hf.
    simpl in *. destruct (after !! q); [done|]. by split; [exists bh|].
  - intros ([bh Hb] & Ha). exists (p, bh). split; [done|].
    apply list_elem_of_filter. split; [|by apply (range_of_elem _ _ _ _ Hr)].
    unfold deleted_entry; simpl. by rewrite Ha.
Qed.

Lemma elem_of_added_of before after al p :
  range_of after al → p ∈ added_of before al ↔ is_added before after p.
Proof.
  intros Hr. rewrite (elem_of_deleted_of after before al p Hr).
  unfold is_deleted, is_added. tauto.
Qed.

(** What [CompareFileSets] returns, whatever order [range] takes. *)
Lemma CompareFileSets_on_spec bl al before after :
  range_of before bl → range_of after al →
  ∃ added edited deleted,
    CompareFileSets_on bl al before after = Ret (added, edited, deleted)
    ∧ (∀ p, p ∈ added ↔ is_added before after p)
    ∧ (∀ p, p ∈ edited ↔ is_edited before after p)
    ∧ (∀ p, p ∈ deleted ↔ is_deleted before after p)
    ∧ NoDup added ∧ NoDup edited ∧ NoDup deleted.
Proof.
  intros Hb Ha. eexists _, _, _. split; [apply CompareFileSets_on_eq|].
  split; [intros p; by apply elem_of_added_of|].
  split; [intros p; by apply elem_of_edited_of|].
  split; [intros p; by apply elem_of_deleted_of|].
  split; [|split]; apply NoDup_filter_fst; by eapply range_of_NoDup.
Qed.

Lemma range_of_map_to_list (m : FileSet) : range_of m (map_to_list m).
Proof. by unfold range_of. Qed.

Lemma is_edited_Some before after p (bh ah : Hashed) :
  before !! p = Some (Some bh) → after !! p = Some (Some ah) →
  is_edited before after p
  ↔ Hashed.Path bh ≠ Hashed.Path ah ∨ ¬ rule_equal bh ah.
Proof.
  intros Hb Ha. unfold is_edited. split.
  - intros (bh' & ah' & Hb' & Ha' & Hne).
    rewrite Hb in Hb'. rewrite Ha in Ha'. simplify_eq.
    rewrite hashed_eqb_Some in Hne. apply bool_decide_eq_false in Hne.
    destruct (decide (Hashed.Path bh = Hashed.Path ah)); [right|left]; tauto.
  - intros Hne. exists (Some bh), (Some ah). split; [done|]. split; [done|].
    rewrite hashed_eqb_Some. apply bool_decide_eq_false. tauto.
Qed.

(** ** The claims about the differ *)

(** On any two maps, keyed or not: a path present in both with non-nil
    fingerprints is Edited iff the fingerprints carry different [Path]
    fields or are unequal under the rule; it is neither Added nor
    Deleted. *)
Lemma edited_iff_path_or_rule
    (bl al : list (string * HashedPtr)) (before after : FileSet)
    (p : string) (bh ah : Hashed) :
  range_of before bl → range_of after al →
  before !! p = Some (Some bh) → after !! p = Some (Some ah) →
  ∃ added edited deleted,
    CompareFileSets_on bl al before after = Ret (added, edited, deleted)
    ∧ (p ∈ edited ↔ Hashed.Path bh ≠ Hashed.Path ah ∨ ¬ rule_equal bh ah)
    ∧ (p ∉ added) ∧ (p ∉ deleted).
Proof.
  intros Hbl Hal Hb Ha.
  destruct (CompareFileSets_on_spec bl al before after Hbl Hal)
    as (added & edited & deleted & Hrun & Hadd & Hed & Hdel & _).
  exists added, edited, deleted. split; [done|].
  split; [|split].
  - rewrite Hed. by apply is_edited_Some.
  - rewrite Hadd. unfold is_added. rewrite Hb. by intros [? _].
  - rewrite Hdel. unfold is_deleted. rewrite Ha. by intros [_ ?].
Qed.

Lemma keyed_empty : keyed ∅.
Proof. intros p h Hl. by rewrite lookup_empty in Hl. Qed.

Lemma keyed_insert (m : FileSet) (h : Hashed) :
  keyed m → keyed (<[Hashed.Path h := Some h]> m).
Proof.
  intros Hm p x Hl. apply lookup_insert_Some in Hl as [[<- <-]|[_ Hl]].
  - by exists h.
  - by apply Hm.
Qed.

Lemma keyed_sample_before : keyed sample_before.
Proof.
  unfold sample_before.
  apply (keyed_insert _ (Hashed.mk "f1" [1; 2] None)).
  apply (keyed_insert _ (Hashed.mk "f2" [] (Some "permission denied"))).
  apply (keyed_insert _ (Hashed.mk "f3" [7] None)).
  apply keyed_empty.
Qed.

Lemma keyed_sample_after : keyed sample_after.
Proof.
  unfold sample_after.
  apply (keyed_insert _ (Hashed.mk "f1" [1; 3] None)).
  apply (keyed_insert _ (Hashed.mk "f2" [] (Some "input/output error"))).
  apply (keyed_insert _ (Hashed.mk "f4" [7] None)).
  apply keyed_empty.
Qed.

(** C1.  The snapshots that [CompareFileSets] is given are those that
    [HashAll] returns, and these are [keyed]: every entry is a non-nil
    fingerprint that carries the path it is filed under
    ([HashAll_results_keyed]).  For every pair of such snapshots, every
    order in which [range] yields their entries and every path present in
    both, [CompareFileSets] returns, and the path is Edited iff its two
    fingerprints are unequal under the rule: equal iff both are non-failed
    with identical digests, or both are failed whatever the errors.  So a
    change of the failed state, either way, is Edited; and the path is
    neither Added nor Deleted. *)
Theorem C1_edited_iff_rule
    (bl al : list (string * HashedPtr)) (before after : FileSet)
    (p : string) (bh ah : Hashed) :
  keyed before → keyed after →
  range_of before bl → range_of after al →
  before !! p = Some (Some bh) → after !! p = Some (Some ah) →
  ∃ added edited deleted,
    CompareFileSets_on bl al before after = Ret (added, edited, deleted)
    ∧ (p ∈ edited ↔ ¬ rule_equal bh ah)
    ∧ ((failed bh ∧ ¬ failed ah) ∨ (¬ failed bh ∧ failed ah) → p ∈ edited)
    ∧ (p ∉ added) ∧ (p ∉ deleted).
Proof.
  intros Hkb Hka Hbl Hal Hb Ha.
  destruct (edited_iff_path_or_rule bl al before after p bh ah Hbl Hal Hb Ha)
    as (added & edited & deleted & Hrun & Hed & Hadd & Hdel).
  exists added, edited, deleted. split; [done|].
  destruct (Hkb p _ Hb) as (? & [= <-] & Hpb).
  destruct (Hka p _ Ha) as (? & [= <-] & Hpa).
  assert (Hiff : p ∈ edited ↔ ¬ rule_equal bh ah).
  { rewrite Hed. split; [|by right].
    intros [Hne|Hne]; [|done]. congruence. }
  split; [done|]. split; [|done].
  intros Htrans. apply Hiff. unfold rule_equal. tauto.
Qed.

Lemma C1_edited_iff_rule_witness :
  ∃ added edited deleted,
    CompareFileSets_on (map_to_list sample_before) (map_to_list sample_after)
      sample_before sample_after = Ret (added, edited, deleted)
    ∧ ("f1" ∈ edited
       ↔ ¬ rule_equal (Hashed.mk "f1" [1; 2] None)
             (Hashed.mk "f1" [1; 3] None))
    ∧ ((failed (Hashed.mk "f1" [1; 2] None)
        ∧ ¬ failed (Hashed.mk "f1" [1; 3] None))
       ∨ (¬ failed (Hashed.mk "f1" [1; 2] None)
          ∧ failed (Hashed.mk "f1" [1; 3] None))
       → "f1" ∈ edited)
    ∧ ("f1" ∉ added) ∧ ("f1" ∉ deleted).
Proof.
  apply (C1_edited_iff_rule _ _ sample_before sample_after "f1"
           (Hashed.mk "f1" [1; 2] None) (Hashed.mk "f1" [1; 3] None)).
  - apply keyed_sample_before.
  - apply keyed_sample_after.
  - apply range_of_map_to_list.
  - apply range_of_map_to_list.
  - vm_compute. reflexivity.
  - vm_compute. reflexivity.
Defined.

(** The samples, worked out: ["f1"] has another digest and is Edited,
    ["f2"] is failed before and after, with another error, and is not. *)
Example sample_diff :
  CompareFileSets sample_before sample_after = Ret (["f4"], ["f1"], ["f3"]).
Proof. vm_compute. reflexivity. Qed.

(** Why the snapshots have to be [keyed]: [HashedEqual] compares the
    [Path] fields before anything else, so two fingerprints filed under
    one key with different [Path] fields make the key Edited, although
    the rule holds them equal. *)
Example moved_is_edited :
  CompareFileSets moved_before moved_after = Ret ([], ["f"], [])
  ∧ rule_equal (Hashed.mk "a" [1] None) (Hashed.mk "b" [1] None)
  ∧ ¬ edited_iff_rule (map_to_list moved_before) (map_to_list moved_after)
        moved_before moved_after "f".
Proof.
  assert (Hr : rule_equal (Hashed.mk "a" [1] None) (Hashed.mk "b" [1] None)).
  { left. unfold failed. simpl. tauto. }
  split; [vm_compute; reflexivity|]. split; [done|].
  intros H.
  destruct (H (Hashed.mk "a" [1] None) (Hashed.mk "b" [1] None))
    as (added & edited & deleted & Hrun & Hiff).
  - vm_compute. reflexivity.
  - vm_compute. reflexivity.
  - vm_compute in Hrun. injection Hrun as <- <- <-.
    apply Hiff; [apply list_elem_of_here|done].
Qed.

Lemma elem_of_unchanged before after p :
  p ∈ unchanged before after
  ↔ ∃ bh ah, before !! p = Some (Some bh) ∧ after !! p = Some (Some ah)
             ∧ rule_equal bh ah.
Proof.
  unfold unchanged. rewrite elem_of_dom. unfold is_Some. split.
  - intros [x Hf]. apply map_lookup_filter_Some in Hf as [Hb Hu].
    unfold unchanged_entry in Hu. simpl in Hu.
    destruct x as [bh|]; [|done].
    destruct (after !! p) as [[ah|]|] eqn:Ha; try done.
    exists bh, ah. by apply bool_decide_eq_true in Hu.
  - intros (bh & ah & Hb & Ha & Heq). exists (Some bh).
    apply map_lookup_filter_Some. split; [done|].
    unfold unchanged_entry. simpl. rewrite Ha.
    by apply bool_decide_eq_true.
Qed.

(** On [keyed] snapshots [HashedEqual] holds the two fingerprints of a
    path equal exactly when the rule of the specification does. *)
Lemma unchanged_keyed before after p :
  keyed before → keyed after →
  p ∈ unchanged before after
  ↔ ∃ bh ah, before !! p = Some bh ∧ after !! p = Some ah
             ∧ hashed_eqb bh ah = true.
Proof.
  intros Hkb Hka. rewrite elem_of_unchanged. split.
  - intros (bh & ah & Hb & Ha & Hr). exists (Some bh), (Some ah).
    split; [done|]. split; [done|].
    destruct (Hkb p _ Hb) as (? & [= <-] & Hpb).
    destruct (Hka p _ Ha) as (? & [= <-] & Hpa).
    rewrite hashed_eqb_Some. apply bool_decide_eq_true.
    split; [congruence|done].
  - intros (x & y & Hb & Ha & Heq).
    destruct (Hkb p _ Hb) as (bh & -> & Hpb).
    destruct (Hka p _ Ha) as (ah & -> & Hpa).
    exists bh, ah. split; [done|]. split; [done|].
    rewrite hashed_eqb_Some in Heq.
    by apply bool_decide_eq_true in Heq as [_ Hr].
Qed.

(** C2.  For every pair of snapshots as [HashAll] returns them ([keyed],
    see C1) and whatever order [range] takes, no path is in two of Added,
    Edited and Deleted, and together the three hold exactly the keys of
    either snapshot, minus the paths present in both with equal
    fingerprints: the same failed state and, when not failed, the same
    digest bytes. *)
Theorem C2_partition
    (bl al : list (string * HashedPtr)) (before after : FileSet) :
  keyed before → keyed after →
  range_of before bl → range_of after al →
  ∃ added edited deleted,
    CompareFileSets_on bl al before after = Ret (added, edited, deleted)
    ∧ list_to_set (C:=gset string) added ## list_to_set edited
    ∧ list_to_set (C:=gset string) added ## list_to_set deleted
    ∧ list_to_set (C:=gset string) edited ## list_to_set deleted
    ∧ list_to_set added ∪ list_to_set edited ∪ list_to_set deleted
      = (dom before ∪ dom after) ∖ unchanged before after.
Proof.
  intros Hkb Hka Hbl Hal.
  destruct (CompareFileSets_on_spec bl al before after Hbl Hal)
    as (added & edited & deleted & Hrun & Hadd & Hed & Hdel & _).
  exists added, edited, deleted. split; [done|].
  unfold is_added in Hadd. unfold is_edited in Hed. unfold is_deleted in Hdel.
  repeat split.
  - intros p. rewrite !elem_of_list_to_set, Hadd, Hed.
    intros [Hn _] (bh & _ & Hb & _). by rewrite Hn in Hb.
  - intros p. rewrite !elem_of_list_to_set, Hadd, Hdel.
    intros [Hn _] [[bh Hb] _]. by rewrite Hn in Hb.
  - intros p. rewrite !elem_of_list_to_set, Hed, Hdel.
    intros (_ & ah & _ & Ha & _) [_ Hn]. by rewrite Hn in Ha.
  - apply set_eq. intros p.
    rewrite !elem_of_union, elem_of_difference, elem_of_union.
    rewrite !elem_of_list_to_set, !elem_of_dom.
    rewrite (unchanged_keyed before after p Hkb Hka).
    rewrite Hadd, Hed, Hdel. unfold is_Some.
    destruct (before !! p) as [bh|] eqn:Hb, (after !! p) as [ah|] eqn:Ha.
    + destruct (hashed_eqb bh ah) eqn:Heq.
      * split.
        -- intros [[[? _]|(?&?&?&?&?)]|[_ ?]]; simplify_eq; congruence.
        -- intros [_ Hno]. exfalso. apply Hno. by exists bh, ah.
      * split.
        -- intros _. split; [left; by eexists|].
           intros (?&?&?&?&?); simplify_eq; congruence.
        -- intros _. left. right. by exists bh, ah.
    + split.
      * intros _. split; [left; by eexists|].
        intros (?&?&?&?&?); simplify_eq; congruence.
      * intros _. right. split; [by eexists|done].
    + split.
      * intros _. split; [right; by eexists|].
        intros (?&?&?&?&?); simplify_eq; congruence.
      * intros _. left. left. split; [done|by eexists].
    + split.
      * intros [[[_ [? ?]]|(?&?&?&?&?)]|[[? ?] _]]; simplify_eq; congruence.
      * intros [[[? ?]|[? ?]] _]; simplify_eq; congruence.
Qed.

Lemma C2_partition_witness :
  ∃ added edited deleted,
    CompareFileSets_on (map_to_list sample_before) (map_to_list sample_after)
      sample_before sample_after = Ret (added, edited, deleted)
    ∧ list_to_set (C:=gset string) added ## list_to_set edited
    ∧ list_to_set (C:=gset string) added ## list_to_set deleted
    ∧ list_to_set (C:=gset string) edited ## list_to_set deleted
    ∧ list_to_set added ∪ list_to_set edited ∪ list_to_set deleted
      = (dom sample_before ∪ dom sample_after)
        ∖ unchanged sample_before sample_after.
Proof.
  apply (C2_partition _ _ sample_before sample_after).
  - apply keyed_sample_before.
  - apply keyed_sample_after.
  - apply range_of_map_to_list.
  - apply range_of_map_to_list.
Defined.

(** In the samples only ["f2"], failed before and after, is unchanged:
    ["f1"], whose digests differ, is not. *)
Example sample_unchanged :
  "f2" ∈ unchanged sample_before sample_after
  ∧ "f1" ∉ unchanged sample_before sample_after.
Proof.
  rewrite !elem_of_unchanged. split.
  - eexists _, _. split; [vm_compute; reflexivity|].
    split; [vm_compute; reflexivity|]. right. by split.
  - intros (bh & ah & Hb & Ha & Hr).
    vm_compute in Hb. vm_compute in Ha. simplify_eq.
    destruct Hr as [(_ & _ & Hh)|[Hf _]]; [discriminate Hh|by apply Hf].
Qed.

(** C4.  Whatever orders [range] takes in the two calls, Deleted of
    [diff(A, B)] is Added of [diff(B, A)] up to order, Added of [diff(A, B)]
    is Deleted of [diff(B, A)] up to order, and the two Edited lists are
    equal up to order. *)
Theorem C4_symmetry
    (bl al bl' al' : list (string * HashedPtr)) (A B : FileSet) :
  range_of A bl → range_of B al → range_of B bl' → range_of A al' →
  ∃ added edited deleted added' edited' deleted',
    CompareFileSets_on bl al A B = Ret (added, edited, deleted)
    ∧ CompareFileSets_on bl' al' B A = Ret (added', edited', deleted')
    ∧ deleted ≡ₚ added'
    ∧ added ≡ₚ deleted'
    ∧ edited ≡ₚ edited'.
Proof.
  intros Hbl Hal Hbl' Hal'.
  destruct (CompareFileSets_on_spec bl al A B Hbl Hal)
    as (added & edited & deleted & Hrun & Hadd & Hed & Hdel & Na & Ne & Nd).
  destruct (CompareFileSets_on_spec bl' al' B A Hbl' Hal')
    as (added' & edited' & deleted' & Hrun' & Hadd' & Hed' & Hdel'
        & Na' & Ne' & Nd').
  exists added, edited, deleted, added', edited', deleted'.
  split; [done|]. split; [done|].
  split; [|split]; apply NoDup_Permutation; try done; intros p.
  - rewrite Hdel, Hadd'. unfold is_deleted, is_added. tauto.
  - rewrite Hadd, Hdel'. unfold is_deleted, is_added. tauto.
  - rewrite Hed, Hed'. unfold is_edited.
    split; intros (x & y & ? & ? & Hne); exists y, x;
      by rewrite hashed_eqb_sym.
Qed.

Lemma C4_symmetry_witness :
  ∃ added edited deleted added' edited' deleted',
    CompareFileSets_on (map_to_list sample_before) (map_to_list sample_after)
      sample_before sample_after = Ret (added, edited, deleted)
    ∧ CompareFileSets_on (map_to_list sample_after)
        (map_to_list sample_before) sample_after sample_before
      = Ret (added', edited', deleted')
    ∧ deleted ≡ₚ added'
    ∧ added ≡ₚ deleted'
    ∧ edited ≡ₚ edited'.
Proof.
  apply (C4_symmetry _ _ _ _ sample_before sample_after);
    apply range_of_map_to_list.
Defined.

Lemma nil_of_no_elem (l : list string) : (∀ p, p ∉ l) → l = [].
Proof.
  destruct l as [|x l]; [done|]. intros H. destruct (H x).
  apply list_elem_of_here.
Qed.

(** C5.  Comparing a snapshot with itself yields empty Added, empty Edited
    and empty Deleted, whatever order [range] takes. *)
Theorem C5_diff_self
    (bl al : list (string * HashedPtr)) (A : FileSet) :
  range_of A bl → range_of A al →
  CompareFileSets_on bl al A A = Ret ([], [], []).
Proof.
  intros Hbl Hal.
  destruct (CompareFileSets_on_spec bl al A A Hbl Hal)
    as (added & edited & deleted & Hrun & Hadd & Hed & Hdel & _).
  rewrite Hrun.
  rewrite (nil_of_no_elem added), (nil_of_no_elem edited),
    (nil_of_no_elem deleted); [done|..]; intros p.
  - rewrite Hdel. unfold is_deleted. intros [[x Hx] Hn]. by rewrite Hn in Hx.
  - rewrite Hed. unfold is_edited. intros (x & y & Hx & Hy & Hne).
    rewrite Hx in Hy. simplify_eq. by rewrite hashed_eqb_refl in Hne.
  - rewrite Hadd. unfold is_added. intros [Hn [x Hx]]. by rewrite Hn in Hx.
Qed.

Lemma C5_diff_self_witness :
  CompareFileSets_on (map_to_list sample_before) (map_to_list sample_before)
    sample_before sample_before = Ret ([], [], []).
Proof.
  apply (C5_diff_self _ _ sample_before); apply range_of_map_to_list.
Defined.

(** C9.  [HashedEqual] holds two nil fingerprints equal, and on no pair of
    arguments, nil or not, does it dereference nil or index out of range:
    it always returns a boolean; a nil and a non-nil fingerprint are
    unequal. *)
Theorem C9_HashedEqual_total :
  HashedEqual None None = Ret true
  ∧ (∀ before after : HashedPtr, ∃ r : bool, HashedEqual before after = Ret r)
  ∧ (∀ h : Hashed, HashedEqual None (Some h) = Ret false
                   ∧ HashedEqual (Some h) None = Ret false).
Proof.
  split; [done|]. split; [|done].
  intros before after. eexists. apply HashedEqual_returns.
Qed.

(** C10.  Two non-nil fingerprints with different [Path] fields are
    unequal for [HashedEqual], whatever their digests and errors. *)
Theorem C10_path_is_compared (b a : Hashed) :
  Hashed.Path b ≠ Hashed.Path a →
  HashedEqual (Some b) (Some a) = Ret false.
Proof.
  intros Hne. rewrite HashedEqual_Some. f_equal.
  apply bool_decide_eq_false_2. tauto.
Qed.

Lemma C10_path_is_compared_witness :
  HashedEqual (Some (Hashed.mk "a" [1] None)) (Some (Hashed.mk "b" [1] None))
  = Ret false
  ∧ rule_equal (Hashed.mk "a" [1] None) (Hashed.mk "b" [1] None).
Proof.
  split.
  - apply (C10_path_is_compared (Hashed.mk "a" [1] None)
             (Hashed.mk "b" [1] None)).
    simpl. discriminate.
  - left. unfold failed. simpl. tauto.
Defined.

(** ** The claims about Hash *)

(** C8.  The fingerprint of a file of length zero carries the 20-byte
    digest da39a3ee5e6b4b0d3255bfef95601890afd80709, and that of a file
    holding exactly the bytes of "abc" carries
    a9993e364706816aba3e25717850c26c9cd0d89d; neither carries an error. *)
Theorem C8_sha1_vectors (path : string) :
  (∃ d, Hash path (Opened (mkFile [] None)) = Some (Hashed.mk path d None)
        ∧ length d = 20%nat
        ∧ hex d = "da39a3ee5e6b4b0d3255bfef95601890afd80709")
  ∧ (∃ d, Hash path (Opened (mkFile (bytes_of "abc") None))
          = Some (Hashed.mk path d None)
          ∧ length d = 20%nat
          ∧ hex d = "a9993e364706816aba3e25717850c26c9cd0d89d").
Proof.
  split; eexists; (split; [reflexivity|]); split; vm_compute; reflexivity.
Qed.

(** ** Files *)

Lemma entry_ind (P : entry → Prop) :
  (∀ mode read_err names,
      Forall (λ x, ∀ c, x.2 = inr c → P c) names →
      P (Entry mode read_err names)) →
  ∀ e, P e.
Proof.
  intros H. fix IH 1. intros [mode read_err names]. apply H.
  induction names as [|[name [err|c]] rest IHrest].
  - constructor.
  - constructor; [|exact IHrest]. simpl. intros c' Hc. discriminate Hc.
  - constructor; [|exact IHrest]. simpl. intros c' Hc.
    injection Hc as <-. apply IH.
Qed.

Lemma testbit_ModeType (n : Z) :
  Z.testbit ModeType n
  = bool_decide (n ∈ [31; 27; 25; 24; 26; 21; 19]).
Proof.
  unfold ModeType, ModeDir, ModeSymlink, ModeNamedPipe, ModeSocket,
    ModeDevice, ModeCharDevice, ModeIrregular.
  rewrite !Z.lor_spec, !Z.shiftl_1_l, !Z.pow2_bits_eqb by lia.
  repeat match goal with
  | |- context [(?k =? n)%Z] => destruct (Z.eqb_spec k n) as [<-|?]; [done|]
  end.
  symmetry. apply bool_decide_eq_false_2.
  rewrite !elem_of_cons, elem_of_nil. intros H. intuition congruence.
Qed.

(** A mode is that of a regular file iff none of its type bits is set. *)
Lemma is_regular_bits (mode : Z) :
  is_regular mode = true
  ↔ ∀ n, n ∈ [31; 27; 25; 24; 26; 21; 19] → Z.testbit mode n = false.
Proof.
  unfold is_regular. rewrite Z.eqb_eq. split.
  - intros H n Hn.
    assert (Hb : Z.testbit (Z.land mode ModeType) n = false)
      by (rewrite H; apply Z.bits_0).
    rewrite Z.land_spec, testbit_ModeType in Hb.
    rewrite bool_decide_eq_true_2 in Hb by done.
    by rewrite andb_true_r in Hb.
  - intros H. apply Z.bits_inj'. intros n _.
    rewrite Z.land_spec, testbit_ModeType, Z.bits_0.
    destruct (decide (n ∈ [31; 27; 25; 24; 26; 21; 19])) as [Hn|Hn].
    + by rewrite (H n Hn).
    + rewrite bool_decide_eq_false_2 by done. apply andb_false_r.
Qed.

Lemma land_bit_zero (mode k : Z) :
  (0 ≤ k)%Z → Z.land mode (Z.shiftl 1 k) = 0 ↔ Z.testbit mode k = false.
Proof.
  intros Hk. rewrite Z.shiftl_1_l. split.
  - intros H.
    assert (Hb : Z.testbit (Z.land mode (2 ^ k)) k = false)
      by (rewrite H; apply Z.bits_0).
    rewrite Z.land_spec, Z.pow2_bits_true in Hb by done.
    by rewrite andb_true_r in Hb.
  - intros H. apply Z.bits_inj'. intros n _.
    rewrite Z.land_spec, Z.pow2_bits_eqb, Z.bits_0 by done.
    destruct (Z.eqb_spec k n) as [<-|?].
    + by rewrite H.
    + apply andb_false_r.
Qed.

Lemma IsDir_not_regular (mode : Z) :
  IsDir (mkInfo mode) = true → is_regular mode = false.
Proof.
  unfold IsDir. simpl. intros Hd.
  destruct (is_regular mode) eqn:Hr; [|done].
  rewrite is_regular_bits in Hr.
  assert (H31 : Z.testbit mode 31 = false).
  { apply Hr. rewrite !elem_of_cons. auto. }
  apply negb_true_iff, Z.eqb_neq in Hd. destruct Hd.
  apply Z.bits_inj'. intros n _.
  unfold ModeDir.
  rewrite Z.land_spec, Z.shiftl_1_l, Z.pow2_bits_eqb, Z.bits_0 by lia.
  destruct (Z.eqb_spec 31 n) as [<-|?].
  - by rewrite H31.
  - apply andb_false_r.
Qed.

Lemma Files_walkFn_error path info err w :
  Files_walkFn path info (Some err) w
  = Ret (None, mkWorld (files w) (stdout w ++ [UnableToAccess path])).
Proof. done. Qed.

Lemma Files_walkFn_info path mode w :
  Files_walkFn path (Some (mkInfo mode)) None w
  = Ret (None, mkWorld (files w ++ (if is_regular mode then [path] else []))
                 (stdout w)).
Proof.
  unfold Files_walkFn, is_regular, mbind, io_bind, mret, io_ret, info_Mode,
    append_files. cbn.
  destruct (Z.land mode ModeType =? 0)%Z; cbn.
  - done.
  - destruct w. cbn. by rewrite app_nil_r.
Qed.

Lemma walk_Files_walkFn Join e : ∀ path w,
  walk Join Files_walkFn path e w
  = Ret (None, mkWorld (files w ++ regular_files Join path e)
                 (stdout w ++ (UnableToAccess <$> inaccessible Join path e))).
Proof.
  induction e as [mode read_err names IH] using entry_ind. intros path w.
  cbn [walk regular_files inaccessible].
  destruct (IsDir (mkInfo mode)) eqn:Hdir; cbn [negb].
  2: { rewrite Files_walkFn_info. by rewrite app_nil_r. }
  unfold mbind at 1, io_bind at 1.
  destruct read_err as [err|].
  { rewrite Files_walkFn_error. cbn. by rewrite app_nil_r. }
  rewrite Files_walkFn_info, (IsDir_not_regular _ Hdir).
  cbn [err_not_nil orb bool_decide decide_rel]. rewrite app_nil_r.
  rewrite bool_decide_eq_false_2 by (intros H; by apply H).
  destruct w as [fs out]. cbn [files stdout].
  revert fs out. induction IH as [|[name [err|c]] rest Hc _ IHrest];
    intros fs out; cbn [range_names below].
  - cbn. by rewrite !app_nil_r.
  - unfold mbind at 1, io_bind at 1. rewrite Files_walkFn_error.
    cbn [bool_decide andb files stdout].
    rewrite bool_decide_eq_false_2 by (intros H; by apply H).
    cbn [andb]. rewrite IHrest. cbn. by rewrite <-app_assoc.
  - unfold mbind at 1, io_bind at 1. rewrite (Hc c eq_refl).
    rewrite bool_decide_eq_false_2 by (intros H; by apply H).
    cbn [andb files stdout]. rewrite IHrest.
    by rewrite fmap_app, <-!app_assoc.
Qed.

Lemma Walk_Files_walkFn Join root found w :
  Walk Join Files_walkFn root found w
  = Ret (None, mkWorld (files w ++ regular_files_at Join root found)
                 (stdout w
                  ++ (UnableToAccess <$> inaccessible_at Join root found))).
Proof.
  unfold Walk. unfold mbind at 1, io_bind at 1. destruct found as [err|e].
  - rewrite Files_walkFn_error. cbn. by rewrite app_nil_r.
  - by rewrite walk_Files_walkFn.
Qed.

Lemma Files_range_eq Join lstat args : ∀ w,
  Files_range Join lstat args w
  = Ret (tt, mkWorld
           (files w ++ (args ≫= λ p, regular_files_at Join p (lstat p)))
           (stdout w ++ (UnableToAccess <$>
                           (args ≫= λ p, inaccessible_at Join p (lstat p))))).
Proof.
  induction args as [|p rest IH]; intros w.
  - cbn. destruct w. cbn. by rewrite !app_nil_r.
  - cbn [Files_range]. unfold mbind at 1, io_bind at 1.
    rewrite Walk_Files_walkFn, IH. cbn. by rewrite fmap_app, <-!app_assoc.
Qed.

(** ** HashAll: invariants of the interleavings *)

Lemma count_app f ws1 ws2 :
  count f (ws1 ++ ws2) = (count f ws1 + count f ws2)%nat.
Proof. induction ws1 as [|w ws1 IH]; simpl; [done|]. rewrite IH. lia. Qed.

Lemma workers_left_app ws1 ws2 :
  workers_left (ws1 ++ ws2) = (workers_left ws1 + workers_left ws2)%nat.
Proof. induction ws1 as [|w ws1 IH]; simpl; [done|]. rewrite IH. lia. Qed.

Lemma count_le f g ws :
  (∀ pc, f pc = true → g pc = true) → (count f ws ≤ count g ws)%nat.
Proof.
  intros Hfg. induction ws as [|[p pc] ws IH]; simpl; [done|].
  destruct (f pc) eqn:Hf; [rewrite (Hfg _ Hf); lia|].
  destruct (g pc); lia.
Qed.

Lemma count_pos f ws :
  (0 < count f ws)%nat →
  ∃ ws1 p pc ws2, ws = ws1 ++ (p, pc) :: ws2 ∧ f pc = true.
Proof.
  induction ws as [|[p pc] ws IH]; simpl; [lia|]. intros Hpos.
  destruct (f pc) eqn:Hf.
  - by exists [], p, pc, ws.
  - destruct IH as (ws1 & q & qc & ws2 & -> & Hq); [lia|].
    by exists ((p, pc) :: ws1), q, qc, ws2.
Qed.

Lemma counters_initial gate paths : counters gate (initial paths).
Proof. unfold counters, initial. simpl. destruct gate; repeat split; lia. Qed.

Lemma counters_step gate outcome s s' :
  step gate outcome s s' → counters gate s → counters gate s'.
Proof.
  intros Hstep (Hwg & Hmu & Hsem & Hret).
  unfold counters.
  destruct Hstep; unfold after_Add, after_Unlock;
    destruct gate as [cap'|] eqn:Hgate; simplify_eq; simpl in *;
    rewrite ?count_app, ?length_app in *; simpl in *;
    (split; [lia|]); (split; [try lia|]);
    (split; [first [lia | intuition lia | idtac]|]);
    try (destruct m; lia);
    try (intros HM; try discriminate HM; specialize (Hret HM);
         by destruct ws1);
    try (intros _; destruct ws; simpl in *; [done|lia]).
Qed.

Lemma counters_reachable gate outcome paths s :
  reachable gate outcome paths s → counters gate s.
Proof.
  unfold reachable. revert s. apply rtc_ind_r; [apply counters_initial|].
  intros s s' _ Hstep IH. by eapply counters_step.
Qed.

(** Every step brings the call nearer to its end. *)
Lemma steps_left_step gate outcome s s' :
  step gate outcome s s' → (steps_left s' < steps_left s)%nat.
Proof.
  intros Hstep. unfold steps_left.
  destruct Hstep; unfold after_Add, after_Unlock; simpl;
    rewrite ?workers_left_app; simpl; try destruct gate; simpl; lia.
Qed.

(** A call cannot go on for ever: a run from [s] has at most [steps_left s]
    steps. *)
Lemma nsteps_steps_left gate outcome n s s' :
  nsteps (step gate outcome) n s s' → (n ≤ steps_left s)%nat.
Proof.
  induction 1 as [|n s s1 s' Hstep _ IH]; [lia|].
  apply steps_left_step in Hstep. lia.
Qed.

(** Until the call has returned, some goroutine can take a step: no
    state is a deadlock, and none has a goroutine about to crash. *)
Lemma progress gate outcome s :
  gate ≠ Some 0%nat →
  (∀ p pc, (p, pc) ∈ workers s → ∃ o, outcome p o) →
  counters gate s → main s ≠ Returned →
  ∃ s', step gate outcome s s'.
Proof.
  intros Hcap Hfs (Hwg & Hmu & Hsem & _) Hmain.
  destruct s as [M ws n g m r]. simpl in *.
  destruct ws as [|[p pc] ws].
  - (* only the main goroutine *)
    destruct M as [[|p todo]|p todo|p todo| |]; simpl in *.
    + eexists. apply step_range_end.
    + eexists. apply step_Add.
    + destruct gate as [cap|]; [|by destruct Hsem as (_ & _ & ?)].
      eexists. apply (step_send _ _ cap); [done|].
      destruct cap; [done|lia].
    + eexists. apply step_go.
    + subst g. eexists. apply step_Wait.
    + done.
  - (* the first goroutine started, or the one that holds [mu] *)
    destruct pc as [|h|h| | |].
    + destruct (Hfs p AtHash) as [o Ho]; [apply list_elem_of_here|].
      eexists. by apply (step_Hash _ _ o M []).
    + destruct m.
      * destruct (count_pos holds_mu ((p, AtLock h) :: ws))
          as (ws1 & q & qc & ws2 & -> & Hq); [simpl in *; lia|].
        destruct qc; try discriminate Hq.
        -- eexists. apply step_store.
        -- eexists. apply step_Unlock.
      * eexists. apply (step_Lock _ _ M []).
    + eexists. apply (step_store _ _ M []).
    + destruct m; [|simpl in Hmu; lia].
      eexists. apply (step_Unlock _ _ M []).
    + destruct gate as [cap|]; simpl in Hsem.
      * destruct n; [lia|]. eexists. by apply (step_receive _ _ cap M []).
      * lia.
    + destruct g; [simpl in Hwg; lia|].
      eexists. apply (step_Done _ _ M []).
Qed.

Lemma accounted_initial paths : accounted paths (initial paths).
Proof. intros p Hp. by left. Qed.

Lemma elem_of_middle {A} (x y : A) (l1 l2 : list A) :
  x ∈ l1 ++ y :: l2 ↔ x = y ∨ x ∈ l1 ++ l2.
Proof. rewrite !elem_of_app, elem_of_cons. tauto. Qed.

(** A goroutine moves on, and still has its fingerprint to store. *)
Lemma accounted_move paths M ws1 p pc pc' ws2 n g m n' g' m' r :
  before_store pc' = true →
  accounted paths (St M (ws1 ++ (p, pc) :: ws2) n g m r) →
  accounted paths (St M (ws1 ++ (p, pc') :: ws2) n' g' m' r).
Proof.
  intros Hpc' Hacc q Hq.
  destruct (Hacc q Hq) as [Hun|[(qc & Hin & Hqc)|Hres]]; simpl in *.
  - by left.
  - right; left. apply elem_of_middle in Hin as [Heq|Hin].
    + simplify_eq. exists pc'. split; [|done]. apply elem_of_middle. by left.
    + exists qc. split; [|done]. apply elem_of_middle. by right.
  - by right; right.
Qed.

(** A goroutine that has stored its fingerprint moves on, or ends. *)
Lemma accounted_after paths M ws1 p pc ws' ws2 n g m n' g' m' r :
  before_store pc = false →
  accounted paths (St M (ws1 ++ (p, pc) :: ws2) n g m r) →
  accounted paths (St M (ws1 ++ ws' ++ ws2) n' g' m' r).
Proof.
  intros Hpc Hacc q Hq.
  destruct (Hacc q Hq) as [Hun|[(qc & Hin & Hqc)|Hres]]; simpl in *.
  - by left.
  - right; left. apply elem_of_middle in Hin as [Heq|Hin].
    + simplify_eq. congruence.
    + exists qc. split; [|done]. rewrite !elem_of_app in *. tauto.
  - by right; right.
Qed.

Lemma accounted_step gate outcome paths s s' :
  step gate outcome s s' → accounted paths s → accounted paths s'.
Proof.
  intros Hstep Hacc. destruct Hstep.
  - intros q Hq. specialize (Hacc q Hq). unfold after_Add.
    by destruct gate.
  - done.
  - done.
  - intros q Hq. destruct (Hacc q Hq) as [Hun|[(qc & Hin & Hqc)|Hres]];
      simpl in *.
    + apply elem_of_cons in Hun as [->|Hun]; [|by left].
      right; left. exists AtHash. split; [|done].
      apply elem_of_app. right. apply list_elem_of_here.
    + right; left. exists qc. split; [|done]. apply elem_of_app. by left.
    + by right; right.
  - done.
  - by eapply accounted_move.
  - by eapply accounted_move.
  - intros q Hq. destruct (Hacc q Hq) as [Hun|[(qc & Hin & Hqc)|Hres]];
      simpl in *.
    + by left.
    + apply elem_of_middle in Hin as [Heq|Hin].
      * simplify_eq. right; right. rewrite lookup_insert_eq. by eexists.
      * right; left. exists qc. split; [|done]. apply elem_of_middle.
        by right.
    + right; right. destruct (decide (p = q)) as [->|Hne].
      * rewrite lookup_insert_eq. by eexists.
      * by rewrite lookup_insert_ne.
  - by apply (accounted_after paths M ws1 p AtUnlock [(p, after_Unlock gate)] ws2
                n g true n g false r).
  - by apply (accounted_after paths M ws1 p AtRelease [(p, AtDone)] ws2
                (S n) g m n g m r).
  - by apply (accounted_after paths M ws1 p AtDone [] ws2
                n (S g) m n g m r).
Qed.

Lemma genuine_initial outcome paths : genuine outcome (initial paths).
Proof.
  split; simpl.
  - intros p pc h Hin. by apply elem_of_nil in Hin.
  - intros p h Hl. by rewrite lookup_empty in Hl.
Qed.

Lemma genuine_step gate outcome s s' :
  step gate outcome s s' → genuine outcome s → genuine outcome s'.
Proof.
  intros Hstep [Hw Hr]. destruct Hstep; simpl in *; try (by split).
  - split; [|done]. intros q qc h Hin Hc.
    apply elem_of_app in Hin as [Hin|Hin].
    + by apply (Hw q qc h).
    + apply list_elem_of_singleton in Hin. by simplify_eq.
  - split; [|done]. intros q qc h Hin Hc.
    apply elem_of_middle in Hin as [Heq|Hin].
    + simplify_eq. simpl in Hc. simplify_eq. by exists o.
    + apply (Hw q qc h); [|done]. apply elem_of_middle. by right.
  - split; [|done]. intros q qc h' Hin Hc.
    apply elem_of_middle in Hin as [Heq|Hin].
    + simplify_eq. simpl in Hc. simplify_eq.
      apply (Hw _ (AtLock h') h'); [|done]. apply elem_of_middle. by left.
    + apply (Hw q qc h'); [|done]. apply elem_of_middle. by right.
  - split.
    + intros q qc h' Hin Hc. apply elem_of_middle in Hin as [Heq|Hin].
      * by simplify_eq.
      * apply (Hw q qc h'); [|done]. apply elem_of_middle. by right.
    + intros q h' Hl. simpl in Hl. destruct (decide (p = q)) as [->|Hne].
      * rewrite lookup_insert_eq in Hl. simplify_eq.
        apply (Hw _ (AtStore h') h'); [|done]. apply elem_of_middle. by left.
      * rewrite lookup_insert_ne in Hl by done. by apply Hr.
  - split; [|done]. intros q qc h' Hin Hc.
    apply elem_of_middle in Hin as [Heq|Hin].
    + simplify_eq. unfold after_Unlock in Hc. by destruct gate.
    + apply (Hw q qc h'); [|done]. apply elem_of_middle. by right.
  - split; [|done]. intros q qc h' Hin Hc.
    apply elem_of_middle in Hin as [Heq|Hin].
    + by simplify_eq.
    + apply (Hw q qc h'); [|done]. apply elem_of_middle. by right.
  - split; [|done]. intros q qc h' Hin Hc.
    apply (Hw q qc h'); [|done]. apply elem_of_middle. by right.
Qed.

(** Every goroutine works on one of the paths given. *)
Lemma workers_of_paths gate outcome paths s :
  reachable gate outcome paths s →
  (∀ p, p ∈ unstarted (main s) → p ∈ paths)
  ∧ (∀ p pc, (p, pc) ∈ workers s → p ∈ paths).
Proof.
  unfold reachable. revert s. apply rtc_ind_r.
  - split; simpl; [done|]. intros p pc Hin. by apply elem_of_nil in Hin.
  - intros s s' _ Hstep [Hm Hw]. destruct Hstep; simpl in *.
    + split; [|done]. unfold after_Add. by destruct gate.
    + split; [|done]. intros p Hp. by apply elem_of_nil in Hp.
    + done.
    + split.
      * intros q Hq. apply Hm. by apply elem_of_cons; right.
      * intros q qc Hin. apply elem_of_app in Hin as [Hin|Hin].
        -- by apply (Hw q qc).
        -- apply list_elem_of_singleton in Hin. simplify_eq.
           apply Hm. apply list_elem_of_here.
    + done.
    + split; [done|]. intros q qc Hin.
      apply elem_of_middle in Hin as [Heq|Hin]; simplify_eq;
        eapply Hw; apply elem_of_middle; [by left|by right].
    + split; [done|]. intros q qc Hin.
      apply elem_of_middle in Hin as [Heq|Hin]; simplify_eq;
        eapply Hw; apply elem_of_middle; [by left|by right].
    + split; [done|]. intros q qc Hin.
      apply elem_of_middle in Hin as [Heq|Hin]; simplify_eq;
        eapply Hw; apply elem_of_middle; [by left|by right].
    + split; [done|]. intros q qc Hin.
      apply elem_of_middle in Hin as [Heq|Hin]; simplify_eq;
        eapply Hw; apply elem_of_middle; [by left|by right].
    + split; [done|]. intros q qc Hin.
      apply elem_of_middle in Hin as [Heq|Hin]; simplify_eq;
        eapply Hw; apply elem_of_middle; [by left|by right].
    + split; [done|]. intros q qc Hin.
      eapply Hw. apply elem_of_middle. by right.
Qed.

Lemma accounted_reachable gate outcome paths s :
  reachable gate outcome paths s → accounted paths s.
Proof.
  unfold reachable. revert s. apply rtc_ind_r; [apply accounted_initial|].
  intros s s' _ Hstep IH. by eapply accounted_step.
Qed.

Lemma genuine_reachable gate outcome paths s :
  reachable gate outcome paths s → genuine outcome s.
Proof.
  unfold reachable. revert s. apply rtc_ind_r; [apply genuine_initial|].
  intros s s' _ Hstep IH. by eapply genuine_step.
Qed.

(** What [Hash] returns: a non-nil fingerprint that carries the path, and
    either an error and no digest, or no error and the digest of the bytes
    read. *)
Lemma Hash_returns path o :
  ∃ h, Hash path o = Some h ∧ Hashed.Path h = path
       ∧ (read_fails o → Hashed.Err h ≠ None ∧ Hashed.Hash h = [])
       ∧ (¬ read_fails o → Hashed.Err h = None
                           ∧ length (Hashed.Hash h) = 20%nat).
Proof.
  destruct o as [err|[bs [err|]]]; simpl; eexists; (split; [reflexivity|]);
    simpl; (split; [done|]); split; try done; try tauto.
  - intros H. by destruct H.
  - intros _. split; [done|]. unfold sha1.sum.
    destruct (sha1.blocks _ _ _) as [[[[h0 h1] h2] h3] h4].
    by rewrite !length_app.
Qed.

(** From every state that a call can reach, the call can be brought to
    its return. *)
Lemma HashAll_returns gate outcome paths :
  gate ≠ Some 0%nat → (∀ p, p ∈ paths → ∃ o, outcome p o) →
  ∀ s, reachable gate outcome paths s →
       ∃ s', rtc (step gate outcome) s s' ∧ main s' = Returned.
Proof.
  intros Hcap Hfs s. remember (steps_left s) as k eqn:Hk. revert s Hk.
  induction k as [k IH] using lt_wf_ind. intros s -> Hreach.
  assert (main s = Returned ∨ main s ≠ Returned) as [HM|HM]
    by (destruct (main s); (by left) || (by right)).
  { exists s. by split. }
  destruct (progress gate outcome s) as [s1 Hstep]; try done.
  - intros p pc Hin. apply Hfs.
    by apply (workers_of_paths _ _ _ _ Hreach) in Hin.
  - by eapply counters_reachable.
  - destruct (IH (steps_left s1) (steps_left_step _ _ _ _ Hstep) s1 eq_refl)
      as (s' & Hrun & Hret).
    + eapply rtc_r; [exact Hreach|exact Hstep].
    + exists s'. split; [|done]. by eapply rtc_l.
Qed.

(** When a call has returned, [results] holds for every path given a
    fingerprint that [Hash] returned for that path. *)
Lemma HashAll_results gate outcome paths s p :
  reachable gate outcome paths s → main s = Returned → p ∈ paths →
  ∃ o h, outcome p o ∧ Hash p o = Some h ∧ results s !! p = Some (Some h).
Proof.
  intros Hreach HM Hp.
  destruct (counters_reachable _ _ _ _ Hreach) as (_ & _ & _ & Hws).
  destruct (accounted_reachable _ _ _ _ Hreach p Hp)
    as [Hun|[(pc & Hin & _)|[hp Hres]]].
  - rewrite HM in Hun. by apply elem_of_nil in Hun.
  - rewrite (Hws HM) in Hin. by apply elem_of_nil in Hin.
  - destruct (genuine_reachable _ _ _ _ Hreach) as [_ Hg].
    destruct (Hg p hp Hres) as (o & Ho & ->).
    destruct (Hash_returns p o) as (h & Hh & _).
    exists o, h. by rewrite Hres, Hh.
Qed.

(** The revision without [sem] puts no bound on the goroutines that hash
    at the same time: on [k] paths it can have all [k] of them at
    [Hash]. *)
Lemma HashAll_ex7_starts_all outcome p k ws g :
  rtc (step HashAll_ex7 outcome)
    (St (Range (replicate k p)) ws 0 g false ∅)
    (St (Range []) (ws ++ replicate k (p, AtHash)) 0 (k + g) false ∅).
Proof.
  revert ws g. induction k as [|k IH]; intros ws g; simpl.
  - rewrite app_nil_r. apply rtc_refl.
  - eapply rtc_l; [apply step_Add|]. simpl.
    eapply rtc_l; [apply step_go|].
    replace (S (k + g)) with (k + S g)%nat by lia.
    replace (ws ++ (p, AtHash) :: replicate k (p, AtHash))
      with ((ws ++ [(p, AtHash)]) ++ replicate k (p, AtHash))
      by (by rewrite <-app_assoc).
    apply IH.
Qed.

Lemma count_hashing_replicate p k :
  count hashing (replicate k (p, AtHash)) = k.
Proof. induction k as [|k IH]; simpl; [done|]. by rewrite IH. Qed.

Lemma HashAll_ex7_no_bound outcome p k :
  ∃ s, reachable HashAll_ex7 outcome (replicate k p) s
       ∧ count hashing (workers s) = k.
Proof.
  eexists. split.
  - apply (HashAll_ex7_starts_all outcome p k [] 0).
  - simpl. apply count_hashing_replicate.
Qed.

(** Every snapshot that [HashAll] builds is [keyed]. *)
Lemma HashAll_results_keyed gate outcome paths s :
  reachable gate outcome paths s → keyed (results s).
Proof.
  intros Hreach p h Hres.
  destruct (genuine_reachable _ _ _ _ Hreach) as [_ Hg].
  destruct (Hg p h Hres) as (o & _ & ->).
  destruct (Hash_returns p o) as (h' & -> & Hpath & _). by exists h'.
Qed.

(** On [keyed] snapshots a path present in both is Edited iff its
    fingerprints are unequal under the rule of the specification. *)
Lemma edited_iff_rule_keyed bl al before after p :
  range_of before bl → range_of after al →
  keyed before → keyed after →
  edited_iff_rule bl al before after p.
Proof.
  intros Hbl Hal Hkb Hka bh ah Hb Ha.
  destruct (CompareFileSets_on_spec bl al before after Hbl Hal)
    as (added & edited & deleted & Hrun & _ & Hed & _).
  exists added, edited, deleted. split; [done|].
  rewrite Hed, (is_edited_Some _ _ _ _ _ Hb Ha).
  destruct (Hkb p _ Hb) as (? & [= <-] & Hpb).
  destruct (Hka p _ Ha) as (? & [= <-] & Hpa).
  split; [|by right]. intros [Hne|Hne]; [|done]. congruence.
Qed.

(** [results] has no other keys than the paths given. *)
Lemma results_of_paths gate outcome paths s :
  reachable gate outcome paths s →
  ∀ p, is_Some (results s !! p) → p ∈ paths.
Proof.
  unfold reachable. revert s.
  apply (rtc_ind_r (λ s, ∀ p, is_Some (results s !! p) → p ∈ paths)).
  - simpl. intros p [h Hh]. by rewrite lookup_empty in Hh.
  - intros s s' Hreach Hstep IH.
    destruct (workers_of_paths _ _ _ _ Hreach) as [_ Hw].
    destruct Hstep; simpl in *; try done.
    intros q Hq. destruct (decide (p = q)) as [<-|Hne].
    + eapply Hw. apply elem_of_middle. by left.
    + rewrite lookup_insert_ne in Hq by done. by apply IH.
Qed.

Lemma HashAll_range_lookup fs paths : ∀ (r : FileSet) p,
  HashAll_range fs paths r !! p
  = if decide (p ∈ paths) then Some (Hash p (fs p)) else r !! p.
Proof.
  induction paths as [|q rest IH]; intros r p; cbn [HashAll_range].
  - rewrite decide_False; [done|]. by intros ?%elem_of_nil.
  - rewrite IH. destruct (decide (p ∈ rest)) as [Hin|Hnin].
    + rewrite decide_True; [done|]. by apply list_elem_of_further.
    + destruct (decide (p = q)) as [->|Hne].
      * rewrite lookup_insert_eq.
        rewrite decide_True; [done|]. apply list_elem_of_here.
      * rewrite lookup_insert_ne by done.
        rewrite decide_False; [done|]. by intros [?|?]%elem_of_cons.
Qed.

(** On a steady file system every interleaving of either revision returns
    the same snapshot, [HashAll fs paths]. *)
Lemma HashAll_steady gate fs paths s :
  reachable gate (steady fs) paths s → main s = Returned →
  results s = HashAll fs paths.
Proof.
  intros Hreach HM. apply map_eq. intros p.
  unfold HashAll. rewrite HashAll_range_lookup, lookup_empty.
  destruct (decide (p ∈ paths)) as [Hp|Hp].
  - destruct (HashAll_results _ _ _ _ _ Hreach HM Hp)
      as (o & h & -> & Hh & ->). by rewrite Hh.
  - destruct (results s !! p) as [h|] eqn:Hres; [|done].
    destruct Hp. eapply results_of_paths; [done|]. by rewrite Hres.
Qed.

(** Every pair of snapshots that calls of [HashAll] return, of either
    revision and whatever the file system answers, satisfies the equality
    claim as it is stated. *)
Lemma HashAll_snapshots_edited_iff_rule
    gate1 gate2 outcome1 outcome2 paths1 paths2 s1 s2 bl al p :
  reachable gate1 outcome1 paths1 s1 → reachable gate2 outcome2 paths2 s2 →
  range_of (results s1) bl → range_of (results s2) al →
  edited_iff_rule bl al (results s1) (results s2) p.
Proof.
  intros H1 H2 Hbl Hal. apply edited_iff_rule_keyed; try done.
  - by eapply HashAll_results_keyed.
  - by eapply HashAll_results_keyed.
Qed.

(** ** The claims about the snapshot builder *)

(** C3.  In every state that a call of the revision of [HashAll] with
    [sem] can reach, on every list of paths and whatever the file system
    answers: at most 100 goroutines are reading and hashing; every
    goroutine that has not yet received from [sem] accounts for one value
    buffered in it, sent before the goroutine was started, and [sem] never
    buffers more than 100; when the call has returned every goroutine has
    ended and [sem] is empty. *)
Theorem C3_at_most_100_in_flight
    (outcome : string → open_result → Prop) (paths : list string)
    (s : state) :
  reachable HashAll_bounded outcome paths s →
  (count hashing (workers s) ≤ 100)%nat
  ∧ sem s = (count holds_slot (workers s) + slot_in_hand (main s))%nat
  ∧ (sem s ≤ 100)%nat
  ∧ (main s = Returned → workers s = [] ∧ sem s = 0%nat).
Proof.
  intros Hreach.
  destruct (counters_reachable _ _ _ _ Hreach)
    as (_ & _ & [Hsem Hcap] & Hws).
  assert (Hle : (count hashing (workers s) ≤ count holds_slot (workers s))%nat).
  { apply count_le. by intros []. }
  split; [lia|]. split; [done|]. split; [done|].
  intros HM. specialize (Hws HM). split; [done|].
  rewrite Hsem, Hws, HM. done.
Qed.

Lemma C3_at_most_100_in_flight_witness :
  let s := St (Range ["b"]) [("a", AtHash)] 1 1 false ∅ in
  (count hashing (workers s) ≤ 100)%nat
  ∧ sem s = (count holds_slot (workers s) + slot_in_hand (main s))%nat
  ∧ (sem s ≤ 100)%nat
  ∧ (main s = Returned → workers s = [] ∧ sem s = 0%nat).
Proof.
  apply (C3_at_most_100_in_flight any_answer ["a"; "b"]).
  unfold reachable, initial.
  eapply rtc_l; [apply step_Add|]. simpl.
  eapply rtc_l; [apply (step_send _ _ 100%nat); [reflexivity|lia]|].
  eapply rtc_l; [apply step_go|]. simpl.
  apply rtc_refl.
Defined.

(** C6.  When a file cannot be opened, or cannot be read to its end,
    [Hash] returns a fingerprint with the path, the error and no digest.
    In both revisions of [HashAll], on every list of paths for which the
    file system answers: every call can be brought to its return from
    wherever it is, and no run has more than [9 * len(paths) + 2] steps;
    and when the call has returned, [results] holds for every path given
    a fingerprint with that path, which is failed and without digest if
    the file cannot be read. *)
Theorem C6_hash_failure_is_recorded
    (gate : option nat) (outcome : string → open_result → Prop)
    (paths : list string) :
  gate = HashAll_ex7 ∨ gate = HashAll_bounded →
  (∀ p, p ∈ paths → ∃ o, outcome p o) →
  (∀ path err,
      Hash path (OpenError err) = Some (Hashed.mk path [] (Some err)))
  ∧ (∀ path bs err,
      Hash path (Opened (mkFile bs (Some err)))
      = Some (Hashed.mk path [] (Some err)))
  ∧ (∀ s, reachable gate outcome paths s →
          ∃ s', rtc (step gate outcome) s s' ∧ main s' = Returned)
  ∧ (∀ n s, nsteps (step gate outcome) n (initial paths) s →
            (n ≤ 9 * length paths + 2)%nat)
  ∧ (∀ s p, reachable gate outcome paths s → main s = Returned →
            p ∈ paths →
            ∃ h, results s !! p = Some (Some h)
                 ∧ Hashed.Path h = p
                 ∧ ((∀ o, outcome p o → read_fails o) →
                    Hashed.Err h ≠ None ∧ Hashed.Hash h = [])).
Proof.
  intros Hgate Hfs.
  split; [done|]. split; [done|]. split; [|split].
  - apply HashAll_returns; [|done].
    destruct Hgate as [->| ->]; discriminate.
  - intros n s Hrun. apply nsteps_steps_left in Hrun.
    unfold steps_left, initial in Hrun. simpl in Hrun. lia.
  - intros s p Hreach HM Hp.
    destruct (HashAll_results _ _ _ _ _ Hreach HM Hp)
      as (o & h & Ho & Hh & Hres).
    exists h. split; [done|].
    destruct (Hash_returns p o) as (h' & Hh' & Hpath & Hfail & _).
    rewrite Hh in Hh'. simplify_eq. split; [done|].
    intros Hall. apply Hfail. by apply Hall.
Qed.

Lemma C6_hash_failure_is_recorded_witness :
  (∀ path err,
      Hash path (OpenError err) = Some (Hashed.mk path [] (Some err)))
  ∧ (∀ path bs err,
      Hash path (Opened (mkFile bs (Some err)))
      = Some (Hashed.mk path [] (Some err)))
  ∧ (∀ s, reachable HashAll_ex7 all_denied ["a"; "b"] s →
          ∃ s', rtc (step HashAll_ex7 all_denied) s s' ∧ main s' = Returned)
  ∧ (∀ n s, nsteps (step HashAll_ex7 all_denied) n (initial ["a"; "b"]) s →
            (n ≤ 9 * length ["a"; "b"] + 2)%nat)
  ∧ (∀ s p, reachable HashAll_ex7 all_denied ["a"; "b"] s →
            main s = Returned → p ∈ ["a"; "b"] →
            ∃ h, results s !! p = Some (Some h)
                 ∧ Hashed.Path h = p
                 ∧ ((∀ o, all_denied p o → read_fails o) →
                    Hashed.Err h ≠ None ∧ Hashed.Hash h = [])).
Proof.
  apply (C6_hash_failure_is_recorded HashAll_ex7 all_denied ["a"; "b"]).
  - left. reflexivity.
  - intros p _. exists (OpenError "permission denied"). reflexivity.
Defined.

(** A call of the first revision on one file that cannot be opened, run to
    its return: the failed fingerprint is in [results]. *)
Example HashAll_ex7_one_denied :
  reachable HashAll_ex7 all_denied ["a"]
    (St Returned [] 0 0 false
       {[ "a" := Some (Hashed.mk "a" [] (Some "permission denied")) ]}).
Proof.
  unfold reachable, initial.
  eapply rtc_l; [apply step_Add|]. simpl.
  eapply rtc_l; [apply step_go|]. simpl.
  eapply rtc_l; [apply step_range_end|].
  eapply rtc_l;
    [apply (step_Hash _ _ (OpenError "permission denied") Wait []);
     reflexivity|]. simpl.
  eapply rtc_l; [apply (step_Lock _ _ Wait [])|]. simpl.
  eapply rtc_l; [apply (step_store _ _ Wait [])|]. simpl.
  eapply rtc_l; [apply (step_Unlock _ _ Wait [])|]. simpl.
  eapply rtc_l; [apply (step_Done _ _ Wait [])|]. simpl.
  eapply rtc_l; [apply step_Wait|].
  apply rtc_refl.
Qed.

(** C3 as stated fails for the revision of [HashAll] in [ex7/watch.go],
    which has no [sem]: on 101 paths it can have 101 goroutines reading
    and hashing at the same time. *)
Lemma C3_counterexample :
  ¬ at_most_100_hashing HashAll_ex7 (replicate 101 "f").
Proof.
  intros H.
  destruct (HashAll_ex7_no_bound any_answer "f" 101) as (s & Hreach & Hn).
  specialize (H s Hreach). lia.
Qed.

(** ** Files: what is listed and what is reported *)

Lemma elem_of_below {A} Join (at_path : string → entry → list A)
    (unreadable : string → list A) path ns (x : A) :
  x ∈ below Join at_path unreadable path ns
  ↔ ∃ name child, (name, child) ∈ ns
      ∧ x ∈ match child with
            | inl _ => unreadable (Join path name)
            | inr c => at_path (Join path name) c
            end.
Proof.
  induction ns as [|[name [err|c]] rest IH]; cbn [below].
  - split; [by intros ?%elem_of_nil|].
    by intros (? & ? & ?%elem_of_nil & _).
  - rewrite elem_of_app, IH. split.
    + intros [Hx|(n' & c' & Hin & Hx)].
      * exists name, (inl err). split; [apply list_elem_of_here|done].
      * exists n', c'. split; [by apply list_elem_of_further|done].
    + intros (n' & c' & Hin & Hx). apply elem_of_cons in Hin as [Heq|Hin].
      * simplify_eq. by left.
      * right. by exists n', c'.
  - rewrite elem_of_app, IH. split.
    + intros [Hx|(n' & c' & Hin & Hx)].
      * exists name, (inr c). split; [apply list_elem_of_here|done].
      * exists n', c'. split; [by apply list_elem_of_further|done].
    + intros (n' & c' & Hin & Hx). apply elem_of_cons in Hin as [Heq|Hin].
      * simplify_eq. by left.
      * right. by exists n', c'.
Qed.

Lemma reached_inl Join path err path' found' :
  reached Join path (inl err) path' found' →
  path' = path ∧ found' = inl err.
Proof. by inversion 1. Qed.

(** The paths listed are those of the regular files reached. *)
Lemma regular_files_reached Join e : ∀ path p,
  p ∈ regular_files Join path e
  ↔ ∃ found, reached Join path (inr e) p found ∧ regular_entry found.
Proof.
  induction e as [mode read_err names IH] using entry_ind. intros path p.
  rewrite Forall_forall in IH. cbn [regular_files]. split.
  - destruct (IsDir (mkInfo mode)) eqn:Hdir.
    + destruct read_err as [err|]; [by intros ?%elem_of_nil|].
      intros (name & [err|c] & Hin & Hp)%elem_of_below;
        [by apply elem_of_nil in Hp|].
      apply (IH _ Hin c eq_refl) in Hp as (found & Hreach & Hreg).
      exists found. split; [|done]. by eapply reached_below.
    + destruct (is_regular mode) eqn:Hreg; [|by intros ?%elem_of_nil].
      intros ->%list_elem_of_singleton.
      eexists. split; [apply reached_here|done].
  - intros (found & Hreach & Hreg). inversion Hreach; simplify_eq.
    + simpl in Hreg. rewrite Hreg.
      destruct (IsDir (mkInfo mode)) eqn:Hdir.
      * apply IsDir_not_regular in Hdir. congruence.
      * apply list_elem_of_here.
    + match goal with H : IsDir _ = true |- _ => rewrite H end.
      apply elem_of_below. exists name, child. split; [done|].
      destruct child as [err|c].
      * match goal with H : reached _ _ (inl _) _ _ |- _ =>
          apply reached_inl in H as [_ ->] end. done.
      * apply (IH (name, inr c)); [done|done|]. by exists found.
Qed.

(** The paths reported are those of the entries reached that cannot be
    accessed. *)
Lemma inaccessible_reached Join e : ∀ path p,
  p ∈ inaccessible Join path e
  ↔ ∃ found, reached Join path (inr e) p found ∧ no_access found.
Proof.
  induction e as [mode read_err names IH] using entry_ind. intros path p.
  rewrite Forall_forall in IH. cbn [inaccessible]. split.
  - destruct (IsDir (mkInfo mode)) eqn:Hdir; [|by intros ?%elem_of_nil].
    destruct read_err as [err|].
    + intros ->%list_elem_of_singleton.
      eexists. split; [apply reached_here|]. by split.
    + intros (name & [err|c] & Hin & Hp)%elem_of_below.
      * apply list_elem_of_singleton in Hp as ->.
        exists (inl err). split; [|done].
        eapply reached_below; [done|done|apply reached_here].
      * apply (IH _ Hin c eq_refl) in Hp as (found & Hreach & Hno).
        exists found. split; [|done]. by eapply reached_below.
  - intros (found & Hreach & Hno). inversion Hreach; simplify_eq.
    + destruct Hno as [-> Hre]. destruct read_err; [|done].
      apply list_elem_of_here.
    + match goal with H : IsDir _ = true |- _ => rewrite H end.
      apply elem_of_below. exists name, child. split; [done|].
      destruct child as [err|c].
      * match goal with H : reached _ _ (inl _) _ _ |- _ =>
          apply reached_inl in H as [-> ->] end. apply list_elem_of_here.
      * apply (IH (name, inr c)); [done|done|]. by exists found.
Qed.

Lemma regular_files_at_reached Join path found p :
  p ∈ regular_files_at Join path found
  ↔ ∃ found', reached Join path found p found' ∧ regular_entry found'.
Proof.
  destruct found as [err|e]; [|apply regular_files_reached].
  simpl. split; [by intros ?%elem_of_nil|].
  intros (found' & [_ ->]%reached_inl & []).
Qed.

Lemma inaccessible_at_reached Join path found p :
  p ∈ inaccessible_at Join path found
  ↔ ∃ found', reached Join path found p found' ∧ no_access found'.
Proof.
  destruct found as [err|e]; [|apply inaccessible_reached].
  simpl. rewrite list_elem_of_singleton. split.
  - intros ->. exists (inl err). split; [apply reached_here|done].
  - by intros (found' & [-> _]%reached_inl & _).
Qed.

(** ** The claim about the enumerator *)

(** C7.  [Files] does not panic.  It returns the paths of the regular
    files reached by recursive descent from the roots, in traversal order:
    a path is listed iff it is that of an entry reached on which
    [os.Lstat] succeeds and whose mode has no type bit set (not a
    directory, symlink, named pipe, socket, device or irregular file).  It
    prints a diagnostic naming the path for every entry reached on which
    [os.Lstat] fails and every directory reached that cannot be read, for
    these only, and goes on with the entries that follow. *)
Theorem C7_Files_regular_files
    (Join : string → string → string) (lstat : string → lstat_result)
    (args : list string) :
  ∃ listed printed,
    Files Join lstat args = Ret (listed, printed)
    ∧ listed = args ≫= (λ root, regular_files_at Join root (lstat root))
    ∧ printed = UnableToAccess
                <$> (args ≫= λ root, inaccessible_at Join root (lstat root))
    ∧ (∀ p, p ∈ listed
            ↔ ∃ root found, root ∈ args
                ∧ reached Join root (lstat root) p found
                ∧ regular_entry found)
    ∧ (∀ p, UnableToAccess p ∈ printed
            ↔ ∃ root found, root ∈ args
                ∧ reached Join root (lstat root) p found
                ∧ no_access found)
    ∧ (∀ mode, is_regular mode = true
               ↔ Z.land mode ModeDir = 0 ∧ Z.land mode ModeSymlink = 0
                 ∧ Z.land mode ModeNamedPipe = 0 ∧ Z.land mode ModeSocket = 0
                 ∧ Z.land mode ModeDevice = 0
                 ∧ Z.land mode ModeCharDevice = 0
                 ∧ Z.land mode ModeIrregular = 0).
Proof.
  exists (args ≫= (λ root, regular_files_at Join root (lstat root))),
    (UnableToAccess
     <$> (args ≫= λ root, inaccessible_at Join root (lstat root))).
  split; [unfold Files; by rewrite Files_range_eq|].
  split; [done|]. split; [done|]. split; [|split].
  - intros p. rewrite list_elem_of_bind. split.
    + intros (root & (found & ? & ?)%regular_files_at_reached & Hroot).
      by exists root, found.
    + intros (root & found & Hroot & ? & ?). exists root. split; [|done].
      apply regular_files_at_reached. by exists found.
  - intros p. rewrite (list_elem_of_fmap_inj UnableToAccess).
    rewrite list_elem_of_bind. split.
    + intros (root & (found & ? & ?)%inaccessible_at_reached & Hroot).
      by exists root, found.
    + intros (root & found & Hroot & ? & ?). exists root. split; [|done].
      apply inaccessible_at_reached. by exists found.
  - intros mode. rewrite is_regular_bits.
    unfold ModeDir, ModeSymlink, ModeNamedPipe, ModeSocket, ModeDevice,
      ModeCharDevice, ModeIrregular.
    rewrite !land_bit_zero by lia. split.
    + intros H. repeat split; apply H; rewrite !elem_of_cons; tauto.
    + intros (?&?&?&?&?&?&?) n Hn.
      rewrite !elem_of_cons, elem_of_nil in Hn.
      destruct Hn as [->|[->|[->|[->|[->|[->|[->|[]]]]]]]]; done.
Qed.

(** The scenario of the specification: three regular files, one
    subdirectory with one regular file, one entry that cannot be accessed;
    and a root that does not exist. *)
Example Files_sample :
  Files slash_join sample_lstat ["root"; "nowhere"]
  = Ret (["root/a"; "root/b"; "root/d/e"; "root/f"],
         [UnableToAccess "root/c"; UnableToAccess "nowhere"]).
Proof. vm_compute. reflexivity. Qed.

(** A symbolic link, a directory that cannot be read and a device are not
    listed; the regular file after them is. *)
Example Files_skips_non_regular :
  Files slash_join
    (λ _, inr (Entry (Z.lor ModeDir 493) None
                 [ ("link", inr (Entry (Z.lor ModeSymlink 511) None []));
                   ("locked", inr (Entry (Z.lor ModeDir 448)
                                     (Some "permission denied") []));
                   ("tty", inr (Entry (Z.lor (Z.lor ModeDevice ModeCharDevice)
                                         400) None []));
                   ("z", inr (Entry 420 None [])) ]))
    ["r"]
  = Ret (["r/z"], [UnableToAccess "r/locked"]).
Proof. vm_compute. reflexivity. Qed.

(** A message of two blocks. *)
Example sha1_two_blocks :
  hex (sha1.sum
         (bytes_of "abcdbcdecdefdefgefghfghighijhijkijkljklmklmnlmnomnopnopq"))
  = "84983e441c3bd26ebaae4aa1f95129e5e54670f1".
Proof. vm_compute. reflexivity. Qed.

(** The scenarios of the specification for the differ. *)
Example diff_added :
  CompareFileSets {[ "f1" := Some (Hashed.mk "f1" [1] None) ]}
    {[ "f1" := Some (Hashed.mk "f1" [1] None);
       "f2" := Some (Hashed.mk "f2" [2] None) ]}
  = Ret (["f2"], [], []).
Proof. vm_compute. reflexivity. Qed.

Example diff_edited :
  CompareFileSets {[ "f1" := Some (Hashed.mk "f1" [1] None) ]}
    {[ "f1" := Some (Hashed.mk "f1" [9] None) ]}
  = Ret ([], ["f1"], []).
Proof. vm_compute. reflexivity. Qed.

Example diff_still_failed :
  CompareFileSets
    {[ "f1" := Some (Hashed.mk "f1" [] (Some "permission denied")) ]}
    {[ "f1" := Some (Hashed.mk "f1" [] (Some "input/output error")) ]}
  = Ret ([], [], []).
Proof. vm_compute. reflexivity. Qed.

(** * Further properties *)

(** ** HashedEqual and CompareFileSets *)

(** X1.  On two non-nil fingerprints [HashedEqual] returns true iff they
    carry the same [Path] and either both carry an error, whatever the
    errors and the digests are, or neither does and the digests are the
    same bytes. *)
Theorem HashedEqual_true_iff (b a : Hashed) :
  HashedEqual (Some b) (Some a) = Ret true
  ↔ Hashed.Path b = Hashed.Path a
    ∧ ((Hashed.Err b ≠ None ∧ Hashed.Err a ≠ None)
       ∨ (Hashed.Err b = None ∧ Hashed.Err a = None
          ∧ Hashed.Hash b = Hashed.Hash a)).
Proof.
  rewrite HashedEqual_Some. split.
  - intros [= H]. apply bool_decide_eq_true in H as [Hp Hr].
    split; [done|]. unfold rule_equal, failed in Hr.
    destruct Hr as [(Hb & Ha & Hh)|[Hb Ha]]; [right|left; done].
    destruct (Hashed.Err b), (Hashed.Err a); try done.
    + by destruct Hb.
    + by destruct Hb.
    + by destruct Ha.
  - intros [Hp Hr]. f_equal. apply bool_decide_eq_true. split; [done|].
    unfold rule_equal, failed.
    destruct Hr as [[Hb Ha]|(Hb & Ha & Hh)]; [by right|left].
    rewrite Hb, Ha. by repeat split; try (intros H; by apply H).
Qed.

Lemma hashed_eqb_trans (x y z : HashedPtr) :
  hashed_eqb x y = true → hashed_eqb y z = true → hashed_eqb x z = true.
Proof.
  destruct x as [x|], y as [y|], z as [z|]; try done.
  rewrite !hashed_eqb_Some, !bool_decide_eq_true.
  unfold rule_equal. intros [Hp1 H1] [Hp2 H2]. split; [congruence|].
  destruct H1 as [(?&?&?)|[? ?]], H2 as [(?&?&?)|[? ?]];
    try done; [left|right]; repeat split; try done; congruence.
Qed.

(** X2.  [HashedEqual] is an equivalence on fingerprints, nil included:
    every fingerprint equals itself, the order of the arguments does not
    matter, and two fingerprints equal to a third are equal. *)
Theorem HashedEqual_equivalence :
  (∀ x, HashedEqual x x = Ret true)
  ∧ (∀ x y, HashedEqual x y = HashedEqual y x)
  ∧ (∀ x y z, HashedEqual x y = Ret true → HashedEqual y z = Ret true →
              HashedEqual x z = Ret true).
Proof.
  split; [|split].
  - intros x. by rewrite HashedEqual_returns, hashed_eqb_refl.
  - intros x y. by rewrite !HashedEqual_returns, hashed_eqb_sym.
  - intros x y z. rewrite !HashedEqual_returns.
    intros [= H1] [= H2]. f_equal. by eapply hashed_eqb_trans.
Qed.

(** X3.  Whatever order [range] takes, Added holds exactly the keys of
    [after] that [before] lacks, Deleted exactly the keys of [before] that
    [after] lacks, Edited only keys of both, and no list holds a path
    twice. *)
Theorem CompareFileSets_lists
    (bl al : list (string * HashedPtr)) (before after : FileSet) :
  range_of before bl → range_of after al →
  ∃ added edited deleted,
    CompareFileSets_on bl al before after = Ret (added, edited, deleted)
    ∧ list_to_set added = dom after ∖ dom before
    ∧ list_to_set deleted = dom before ∖ dom after
    ∧ list_to_set edited ⊆ dom before ∩ dom after
    ∧ NoDup added ∧ NoDup edited ∧ NoDup deleted.
Proof.
  intros Hbl Hal.
  destruct (CompareFileSets_on_spec bl al before after Hbl Hal)
    as (added & edited & deleted & Hrun & Hadd & Hed & Hdel & Hnd).
  exists added, edited, deleted. split; [done|].
  split; [|split; [|split; [|done]]].
  - apply set_eq. intros p.
    rewrite elem_of_list_to_set, elem_of_difference, Hadd.
    unfold is_added. rewrite not_elem_of_dom, elem_of_dom. tauto.
  - apply set_eq. intros p.
    rewrite elem_of_list_to_set, elem_of_difference, Hdel.
    unfold is_deleted. rewrite not_elem_of_dom, elem_of_dom. tauto.
  - intros p. rewrite elem_of_list_to_set, elem_of_intersection, Hed.
    rewrite !elem_of_dom. intros (bh & ah & Hb & Ha & _).
    split; by eexists.
Qed.

Lemma CompareFileSets_lists_witness :
  ∃ added edited deleted,
    CompareFileSets_on (map_to_list sample_before) (map_to_list sample_after)
      sample_before sample_after = Ret (added, edited, deleted)
    ∧ list_to_set added = dom sample_after ∖ dom sample_before
    ∧ list_to_set deleted = dom sample_before ∖ dom sample_after
    ∧ list_to_set edited ⊆ dom sample_before ∩ dom sample_after
    ∧ NoDup added ∧ NoDup edited ∧ NoDup deleted.
Proof.
  apply (CompareFileSets_lists _ _ sample_before sample_after);
    apply range_of_map_to_list.
Defined.

(** X4.  [CompareFileSets] does not panic: on every pair of maps, also
    maps that hold nil pointers, and every order of their entries, it
    returns its three lists. *)
Theorem CompareFileSets_never_panics
    (bl al : list (string * HashedPtr)) (before after : FileSet) :
  ∃ added edited deleted,
    CompareFileSets_on bl al before after = Ret (added, edited, deleted).
Proof. eexists _, _, _. apply CompareFileSets_on_eq. Qed.

Lemma filter_fst_all (f : string * HashedPtr → bool) l :
  (∀ x, x ∈ l → f x = true) → (filter (λ y, f y = true) l).*1 = l.*1.
Proof.
  induction l as [|x l IH]; intros H; [done|].
  rewrite filter_fst_cons, (H x) by apply list_elem_of_here.
  rewrite fmap_cons. f_equal. apply IH. intros y Hy. apply H.
  by apply list_elem_of_further.
Qed.

Lemma filter_fst_none (f : string * HashedPtr → bool) l :
  (∀ x, x ∈ l → f x = false) → (filter (λ y, f y = true) l).*1 = [].
Proof.
  induction l as [|x l IH]; intros H; [done|].
  rewrite filter_fst_cons, (H x) by apply list_elem_of_here.
  apply IH. intros y Hy. apply H. by apply list_elem_of_further.
Qed.

(** X5.  Compared with the empty snapshot, every path is Added, in the
    order [range] yields it, and nothing else is reported; compared from a
    snapshot to the empty one, every path is Deleted. *)
Theorem CompareFileSets_empty (l : list (string * HashedPtr)) (m : FileSet) :
  CompareFileSets_on [] l ∅ m = Ret (l.*1, [], [])
  ∧ CompareFileSets_on l [] m ∅ = Ret ([], [], l.*1).
Proof.
  rewrite !CompareFileSets_on_eq.
  unfold added_of, edited_of, deleted_of. split; simpl.
  - rewrite (filter_fst_all (deleted_entry ∅)); [done|]. intros x _.
    unfold deleted_entry. by rewrite lookup_empty.
  - rewrite (filter_fst_all (deleted_entry ∅)),
      (filter_fst_none (edited_entry ∅)); [done|..]; intros x _.
    + unfold edited_entry. by rewrite lookup_empty.
    + unfold deleted_entry. by rewrite lookup_empty.
Qed.

(** Nothing is reported iff the snapshots have the same keys and hold
    equal fingerprints at each. *)
Lemma quiet_iff bl al before after :
  range_of before bl → range_of after al →
  CompareFileSets_on bl al before after = Ret ([], [], [])
  ↔ dom before = dom after
    ∧ ∀ p bh ah, before !! p = Some bh → after !! p = Some ah →
                 hashed_eqb bh ah = true.
Proof.
  intros Hbl Hal.
  destruct (CompareFileSets_on_spec bl al before after Hbl Hal)
    as (added & edited & deleted & Hrun & Hadd & Hed & Hdel & _).
  rewrite Hrun. split.
  - intros [= -> -> ->]. split.
    + apply set_eq. intros p. rewrite !elem_of_dom. split; intros Hp.
      * destruct (after !! p) eqn:Ha; [by eexists|].
        assert (p ∈ @nil string) as ?%elem_of_nil; [|done].
        apply Hdel. by split.
      * destruct (before !! p) eqn:Hb; [by eexists|].
        assert (p ∈ @nil string) as ?%elem_of_nil; [|done].
        apply Hadd. by split.
    + intros p bh ah Hb Ha. destruct (hashed_eqb bh ah) eqn:Heq; [done|].
      assert (p ∈ @nil string) as ?%elem_of_nil; [|done].
      apply Hed. by exists bh, ah.
  - intros [Hdom Heq].
    rewrite (nil_of_no_elem added), (nil_of_no_elem edited),
      (nil_of_no_elem deleted); [done|..]; intros p.
    + rewrite Hdel. intros [Hb Ha%not_elem_of_dom].
      apply elem_of_dom in Hb. by rewrite Hdom in Hb.
    + rewrite Hed. intros (bh & ah & Hb & Ha & Hne).
      by rewrite (Heq p bh ah) in Hne.
    + rewrite Hadd. intros [Hb%not_elem_of_dom Ha].
      apply elem_of_dom in Ha. by rewrite Hdom in Hb.
Qed.

(** X6.  Whatever order [range] takes, [CompareFileSets] reports nothing
    iff the two snapshots have the same keys and [HashedEqual] holds the
    two fingerprints at every key equal. *)
Theorem CompareFileSets_quiet_iff
    (bl al : list (string * HashedPtr)) (before after : FileSet) :
  range_of before bl → range_of after al →
  CompareFileSets_on bl al before after = Ret ([], [], [])
  ↔ dom before = dom after
    ∧ ∀ p bh ah, before !! p = Some bh → after !! p = Some ah →
                 HashedEqual bh ah = Ret true.
Proof.
  intros Hbl Hal. rewrite (quiet_iff _ _ _ _ Hbl Hal).
  split; intros [Hdom Heq]; (split; [done|]); intros p bh ah Hb Ha.
  - by rewrite HashedEqual_returns, (Heq p bh ah).
  - specialize (Heq p bh ah Hb Ha). rewrite HashedEqual_returns in Heq.
    by injection Heq.
Qed.

Lemma CompareFileSets_quiet_iff_witness :
  CompareFileSets_on (map_to_list sample_before) (map_to_list sample_before)
    sample_before sample_before = Ret ([], [], [])
  ↔ dom sample_before = dom sample_before
    ∧ ∀ p bh ah, sample_before !! p = Some bh → sample_before !! p = Some ah →
                 HashedEqual bh ah = Ret true.
Proof.
  apply (CompareFileSets_quiet_iff _ _ sample_before sample_before);
    apply range_of_map_to_list.
Defined.

(** X7.  Quiet polls chain: if nothing is reported from [A] to [B] and
    nothing from [B] to [C], nothing is reported from [A] to [C]. *)
Theorem CompareFileSets_quiet_trans
    (la lb lb' lc la' lc' : list (string * HashedPtr)) (A B C : FileSet) :
  range_of A la → range_of B lb → range_of B lb' → range_of C lc →
  range_of A la' → range_of C lc' →
  CompareFileSets_on la lb A B = Ret ([], [], []) →
  CompareFileSets_on lb' lc B C = Ret ([], [], []) →
  CompareFileSets_on la' lc' A C = Ret ([], [], []).
Proof.
  intros Ha Hb Hb' Hc Ha' Hc'.
  rewrite (quiet_iff _ _ _ _ Ha Hb), (quiet_iff _ _ _ _ Hb' Hc),
    (quiet_iff _ _ _ _ Ha' Hc').
  intros [Hd1 H1] [Hd2 H2]. split; [congruence|].
  intros p x z Hx Hz.
  assert (is_Some (B !! p)) as [y Hy].
  { apply elem_of_dom. rewrite <-Hd1. apply elem_of_dom. by eexists. }
  eapply hashed_eqb_trans; [by eapply H1|by eapply H2].
Qed.

Lemma CompareFileSets_quiet_trans_witness :
  CompareFileSets_on (map_to_list sample_before) (map_to_list sample_before)
    sample_before sample_before = Ret ([], [], []).
Proof.
  apply (CompareFileSets_quiet_trans
           (map_to_list sample_before) (map_to_list sample_before)
           (map_to_list sample_before) (map_to_list sample_before)
           (map_to_list sample_before) (map_to_list sample_before)
           sample_before sample_before sample_before);
    try apply range_of_map_to_list; vm_compute; reflexivity.
Defined.

(** X8.  The order in which [range] yields the entries of the two maps
    changes at most the order of the paths in the three lists. *)
Theorem CompareFileSets_order_irrelevant
    (bl al bl' al' : list (string * HashedPtr)) (before after : FileSet) :
  range_of before bl → range_of after al →
  range_of before bl' → range_of after al' →
  ∃ added edited deleted added' edited' deleted',
    CompareFileSets_on bl al before after = Ret (added, edited, deleted)
    ∧ CompareFileSets_on bl' al' before after
      = Ret (added', edited', deleted')
    ∧ added ≡ₚ added' ∧ edited ≡ₚ edited' ∧ deleted ≡ₚ deleted'.
Proof.
  intros Hbl Hal Hbl' Hal'.
  destruct (CompareFileSets_on_spec bl al before after Hbl Hal)
    as (added & edited & deleted & Hrun & Hadd & Hed & Hdel & Na & Ne & Nd).
  destruct (CompareFileSets_on_spec bl' al' before after Hbl' Hal')
    as (added' & edited' & deleted' & Hrun' & Hadd' & Hed' & Hdel'
        & Na' & Ne' & Nd').
  exists added, edited, deleted, added', edited', deleted'.
  split; [done|]. split; [done|].
  split; [|split]; apply NoDup_Permutation; try done; intros p.
  - by rewrite Hadd, Hadd'.
  - by rewrite Hed, Hed'.
  - by rewrite Hdel, Hdel'.
Qed.

Lemma CompareFileSets_order_irrelevant_witness :
  ∃ added edited deleted added' edited' deleted',
    CompareFileSets_on (map_to_list sample_before) (map_to_list sample_after)
      sample_before sample_after = Ret (added, edited, deleted)
    ∧ CompareFileSets_on (reverse (map_to_list sample_before))
        (reverse (map_to_list sample_after)) sample_before sample_after
      = Ret (added', edited', deleted')
    ∧ added ≡ₚ added' ∧ edited ≡ₚ edited' ∧ deleted ≡ₚ deleted'.
Proof.
  apply (CompareFileSets_order_irrelevant _ _ _ _ sample_before sample_after);
    unfold range_of; try reflexivity; apply reverse_Permutation.
Defined.

(** ** Hash and HashAll *)

Lemma Hash_equal_iff path o1 o2 :
  hashed_eqb (Hash path o1) (Hash path o2) = true ↔ same_reading o1 o2.
Proof.
  unfold same_reading.
  destruct o1 as [e1|[bs1 [e1|]]], o2 as [e2|[bs2 [e2|]]]; simpl;
    rewrite hashed_eqb_Some, bool_decide_eq_true; unfold rule_equal, failed;
    simpl.
  all: split.
  all: try (intros _; left; by split).
  all: try (intros _; split; [done|right]; by split).
  all: try (intros [_ [(H1 & H2 & _)|[H1 H2]]]; exfalso;
            first [by apply H1 | by apply H2]).
  all: try (intros [[H1 H2]|(f1 & f2 & ? & ? & ? & ? & _)]; exfalso;
            simplify_eq/=; first [by apply H1 | by apply H2]).
  - intros [_ [(_ & _ & Hs)|[H1 _]]]; [|by destruct H1].
    right. by exists (mkFile bs1 None), (mkFile bs2 None).
  - intros [[H1 _]|(f1 & f2 & ? & ? & _ & _ & Hs)]; [by destruct H1|].
    simplify_eq/=. split; [done|left].
    by repeat split; try (intros H; by apply H).
Qed.

(** X9.  The fingerprints that [Hash] takes of one path at two times are
    equal for [HashedEqual] iff both readings fail, whatever the errors
    and however much was read before, or both reach the end of the file
    with the same SHA-1 digest. *)
Theorem Hash_twice_equal_iff (path : string) (o1 o2 : open_result) :
  HashedEqual (Hash path o1) (Hash path o2) = Ret true ↔ same_reading o1 o2.
Proof.
  rewrite HashedEqual_returns, <-Hash_equal_iff.
  split; [by intros [= ->]|by intros ->].
Qed.

(** A call of the first revision on one path, run to its return with the
    goroutine taking all its steps as soon as it is started. *)
Lemma HashAll_ex7_one_path fs p :
  reachable HashAll_ex7 (steady fs) [p]
    (St Returned [] 0 0 false {[ p := Hash p (fs p) ]}).
Proof.
  unfold reachable, initial.
  eapply rtc_l; [apply step_Add|]. simpl.
  eapply rtc_l; [apply step_go|]. simpl.
  eapply rtc_l; [apply step_range_end|].
  eapply rtc_l; [apply (step_Hash _ _ (fs p) Wait []); reflexivity|]. simpl.
  eapply rtc_l; [apply (step_Lock _ _ Wait [])|]. simpl.
  eapply rtc_l; [apply (step_store _ _ Wait [])|]. simpl.
  eapply rtc_l; [apply (step_Unlock _ _ Wait [])|]. simpl.
  eapply rtc_l; [apply (step_Done _ _ Wait [])|]. simpl.
  eapply rtc_l; [apply step_Wait|].
  rewrite insert_empty. apply rtc_refl.
Qed.

(** X10.  While the file system answers the same for every path, every
    interleaving of the goroutines of either revision of [HashAll]
    returns the same snapshot: the one that hashing the paths one after
    the other gives. *)
Theorem HashAll_steady_result
    (gate : option nat) (fs : string → open_result) (paths : list string)
    (s : state) :
  reachable gate (steady fs) paths s → main s = Returned →
  results s = HashAll fs paths.
Proof. apply HashAll_steady. Qed.

Lemma HashAll_steady_result_witness :
  results (St Returned [] 0 0 false {[ "a" := Hash "a" (fs_abc "a") ]})
  = HashAll fs_abc ["a"].
Proof.
  apply (HashAll_steady_result HashAll_ex7 fs_abc ["a"]).
  - apply HashAll_ex7_one_path.
  - reflexivity.
Defined.

(** X11.  At most one goroutine is between [mu.Lock()] and [mu.Unlock()]
    in any state that a call of either revision can reach, and none while
    [mu] is unlocked: no two goroutines write [results] at once. *)
Theorem HashAll_mutual_exclusion
    (gate : option nat) (outcome : string → open_result → Prop)
    (paths : list string) (s : state) :
  reachable gate outcome paths s →
  (count holds_mu (workers s) ≤ 1)%nat
  ∧ (mu s = false → count holds_mu (workers s) = 0%nat).
Proof.
  intros Hreach.
  destruct (counters_reachable _ _ _ _ Hreach) as (_ & Hmu & _).
  rewrite Hmu. destruct (mu s); split; try done; lia.
Qed.

Lemma HashAll_mutual_exclusion_witness :
  let s := St (Range ["b"]) [("a", AtStore (Hash "a" (fs_abc "a")))]
             0 1 true ∅ in
  (count holds_mu (workers s) ≤ 1)%nat
  ∧ (mu s = false → count holds_mu (workers s) = 0%nat).
Proof.
  apply (HashAll_mutual_exclusion HashAll_ex7 (steady fs_abc) ["a"; "b"]).
  unfold reachable, initial.
  eapply rtc_l; [apply step_Add|]. simpl.
  eapply rtc_l; [apply step_go|]. simpl.
  eapply rtc_l;
    [apply (step_Hash _ _ (fs_abc "a") (Range ["b"]) []); reflexivity|].
  eapply rtc_l; [apply (step_Lock _ _ (Range ["b"]) [])|].
  apply rtc_refl.
Defined.



(** X13.  The snapshot that a call of either revision returns has exactly
    the paths given as keys, a path given twice being one key, and files
    under every key a non-nil fingerprint that carries the key as its
    [Path], whatever the file system answers. *)
Theorem HashAll_snapshot_keys
    (gate : option nat) (outcome : string → open_result → Prop)
    (paths : list string) (s : state) :
  reachable gate outcome paths s → main s = Returned →
  dom (results s) = list_to_set paths ∧ keyed (results s).
Proof.
  intros Hreach HM. split; [|by eapply HashAll_results_keyed].
  apply set_eq. intros p. rewrite elem_of_dom, elem_of_list_to_set. split.
  - by eapply results_of_paths.
  - intros Hp.
    destruct (HashAll_results _ _ _ _ _ Hreach HM Hp) as (o & h & _ & _ & Hr).
    by eexists.
Qed.

Lemma HashAll_snapshot_keys_witness :
  let s := St Returned [] 0 0 false {[ "a" := Hash "a" (fs_abc "a") ]} in
  dom (results s) = list_to_set ["a"] ∧ keyed (results s).
Proof.
  apply (HashAll_snapshot_keys HashAll_ex7 (steady fs_abc) ["a"]).
  - apply HashAll_ex7_one_path.
  - reflexivity.
Defined.

(** X14.  On no paths at all, a call of either revision never starts a
    goroutine and never writes [results]: it returns the empty
    snapshot. *)
Theorem HashAll_no_paths
    (gate : option nat) (outcome : string → open_result → Prop) (s : state) :
  reachable gate outcome [] s → workers s = [] ∧ results s = ∅.
Proof.
  intros Hreach. split.
  - destruct (workers s) as [|[p pc] ws] eqn:Hws; [done|].
    destruct (workers_of_paths _ _ _ _ Hreach) as [_ Hw].
    assert (p ∈ @nil string) as ?%elem_of_nil; [|done].
    apply (Hw p pc). rewrite Hws. apply list_elem_of_here.
  - apply map_empty. intros p.
    destruct (results s !! p) as [h|] eqn:Hr; [|done].
    assert (p ∈ @nil string) as ?%elem_of_nil; [|done].
    eapply results_of_paths; [done|]. by rewrite Hr.
Qed.

Lemma HashAll_no_paths_witness :
  let s := St Returned [] 0 0 false ∅ in
  workers s = [] ∧ results s = ∅.
Proof.
  apply (HashAll_no_paths HashAll_bounded any_answer).
  unfold reachable, initial.
  eapply rtc_l; [apply step_range_end|].
  eapply rtc_l; [apply step_Wait|].
  apply rtc_refl.
Defined.

Lemma HashAll_lookup fs paths p :
  HashAll fs paths !! p
  = if decide (p ∈ paths) then Some (Hash p (fs p)) else None.
Proof. unfold HashAll. by rewrite HashAll_range_lookup, lookup_empty. Qed.

(** X15.  One poll cycle.  Between a snapshot of [paths1] taken while the
    file system answers [fs1] and one of [paths2] taken while it answers
    [fs2], [CompareFileSets] reports as Added the paths only in [paths2],
    as Deleted the paths only in [paths1], and as Edited the paths in both
    whose two readings differ: one fails and the other does not, or both
    succeed with different digests. *)
Theorem poll_cycle
    (fs1 fs2 : string → open_result) (paths1 paths2 : list string)
    (bl al : list (string * HashedPtr)) :
  range_of (HashAll fs1 paths1) bl → range_of (HashAll fs2 paths2) al →
  ∃ added edited deleted,
    CompareFileSets_on bl al (HashAll fs1 paths1) (HashAll fs2 paths2)
    = Ret (added, edited, deleted)
    ∧ (∀ p, p ∈ added ↔ p ∈ paths2 ∧ p ∉ paths1)
    ∧ (∀ p, p ∈ deleted ↔ p ∈ paths1 ∧ p ∉ paths2)
    ∧ (∀ p, p ∈ edited
            ↔ p ∈ paths1 ∧ p ∈ paths2 ∧ ¬ same_reading (fs1 p) (fs2 p)).
Proof.
  intros Hbl Hal.
  destruct (CompareFileSets_on_spec bl al _ _ Hbl Hal)
    as (added & edited & deleted & Hrun & Hadd & Hed & Hdel & _).
  exists added, edited, deleted. split; [done|].
  split; [|split]; intros p.
  - rewrite Hadd. unfold is_added. rewrite !HashAll_lookup.
    destruct (decide (p ∈ paths1)), (decide (p ∈ paths2)); split;
      try (by intros [? [? ?]]); by intros [? ?].
  - rewrite Hdel. unfold is_deleted. rewrite !HashAll_lookup.
    destruct (decide (p ∈ paths1)), (decide (p ∈ paths2)); split;
      try (by intros [[? ?] ?]); by intros [? ?].
  - rewrite Hed. unfold is_edited. rewrite !HashAll_lookup.
    destruct (decide (p ∈ paths1)), (decide (p ∈ paths2)); split;
      try (by intros (? & ? & ? & ? & ?)); try (by intros (? & ? & ?)).
    + intros (bh & ah & [= <-] & [= <-] & Hne).
      split; [done|]. split; [done|]. rewrite <-Hash_equal_iff.
      by rewrite Hne.
    + intros (_ & _ & Hne). eexists _, _. split; [done|]. split; [done|].
      rewrite <-(Hash_equal_iff p) in Hne.
      by destruct (hashed_eqb (Hash p (fs1 p)) (Hash p (fs2 p))).
Qed.

Lemma poll_cycle_witness :
  ∃ added edited deleted,
    CompareFileSets_on (map_to_list (HashAll fs_abc ["a"; "b"]))
      (map_to_list (HashAll fs_abd ["a"; "c"]))
      (HashAll fs_abc ["a"; "b"]) (HashAll fs_abd ["a"; "c"])
    = Ret (added, edited, deleted)
    ∧ (∀ p, p ∈ added ↔ p ∈ ["a"; "c"] ∧ p ∉ ["a"; "b"])
    ∧ (∀ p, p ∈ deleted ↔ p ∈ ["a"; "b"] ∧ p ∉ ["a"; "c"])
    ∧ (∀ p, p ∈ edited
            ↔ p ∈ ["a"; "b"] ∧ p ∈ ["a"; "c"]
              ∧ ¬ same_reading (fs_abc p) (fs_abd p)).
Proof.
  apply (poll_cycle fs_abc fs_abd ["a"; "b"] ["a"; "c"]);
    apply range_of_map_to_list.
Defined.

(** The poll of the witness: ["a"] was rewritten, ["b"] went and ["c"]
    came; neither ["b"] nor ["c"] can be opened. *)
Example poll_cycle_sample :
  CompareFileSets (HashAll fs_abc ["a"; "b"]) (HashAll fs_abd ["a"; "c"])
  = Ret (["c"], ["a"], ["b"]).
Proof. vm_compute. reflexivity. Qed.

(** ** main *)

Lemma same_snapshot_quiet bl al A B :
  range_of A bl → range_of B al →
  CompareFileSets_on bl al A B = Ret ([], [], []) ↔ same_snapshot A B.
Proof.
  intros Hbl Hal. rewrite (quiet_iff _ _ _ _ Hbl Hal). unfold same_snapshot.
  split; intros [Hdom Heq]; (split; [done|]); intros p bh ah Hb Ha.
  - by rewrite HashedEqual_returns, (Heq p bh ah).
  - specialize (Heq p bh ah Hb Ha). rewrite HashedEqual_returns in Heq.
    by injection Heq.
Qed.

Lemma main_loop_all_same polls : ∀ prev out,
  ranges_ok prev polls → all_same prev polls →
  main_loop prev polls out = Ret out.
Proof.
  induction polls as [|t rest IH]; intros prev out Hok Hsame; [done|].
  destruct Hok as (Hp & Hc & Hok). destruct Hsame as [Hs Hsame].
  cbn [main_loop].
  rewrite (proj2 (same_snapshot_quiet _ _ _ _ Hp Hc) Hs). cbn.
  by apply IH.
Qed.





(** ** Files *)

Lemma Files_eq Join lstat args :
  Files Join lstat args
  = Ret (args ≫= (λ root, regular_files_at Join root (lstat root)),
         UnableToAccess
         <$> (args ≫= λ root, inaccessible_at Join root (lstat root))).
Proof. unfold Files. by rewrite Files_range_eq. Qed.

(** X18.  [Files] takes its arguments one after the other and removes no
    duplicates: on [args1 ++ args2] it lists what it lists on [args1]
    followed by what it lists on [args2], and prints the diagnostics of
    the one followed by those of the other; a root given twice is
    listed twice. *)
Theorem Files_app
    (Join : string → string → string) (lstat : string → lstat_result)
    (args1 args2 : list string) :
  ∃ listed1 printed1 listed2 printed2,
    Files Join lstat args1 = Ret (listed1, printed1)
    ∧ Files Join lstat args2 = Ret (listed2, printed2)
    ∧ Files Join lstat (args1 ++ args2)
      = Ret (listed1 ++ listed2, printed1 ++ printed2).
Proof.
  eexists _, _, _, _. rewrite !Files_eq. split; [done|]. split; [done|].
  by rewrite !bind_app, fmap_app.
Qed.

(** X19.  Roots on which [os.Lstat] fails are reported, one diagnostic for
    each in the order given, and nothing is listed for them. *)
Theorem Files_missing_roots
    (Join : string → string → string) (lstat : string → lstat_result)
    (args : list string) :
  (∀ root, root ∈ args → ∃ err, lstat root = inl err) →
  Files Join lstat args = Ret ([], UnableToAccess <$> args).
Proof.
  intros Hmiss. rewrite Files_eq.
  assert (args ≫= (λ root, regular_files_at Join root (lstat root)) = []
          ∧ args ≫= (λ root, inaccessible_at Join root (lstat root)) = args)
    as [-> ->]; [|done].
  induction args as [|root rest IH]; [done|].
  destruct (Hmiss root) as [err Herr]; [apply list_elem_of_here|].
  destruct IH as [IH1 IH2].
  { intros r Hr. apply Hmiss. by apply list_elem_of_further. }
  cbn [mbind list_bind]. rewrite Herr. cbn [regular_files_at inaccessible_at].
  fold (mbind (M:=list) (λ root, regular_files_at Join root (lstat root)) rest).
  fold (mbind (M:=list) (λ root, inaccessible_at Join root (lstat root)) rest).
  by rewrite IH1, IH2.
Qed.

Lemma Files_missing_roots_witness :
  Files slash_join sample_lstat ["nowhere"; "gone"]
  = Ret ([], UnableToAccess <$> ["nowhere"; "gone"]).
Proof.
  apply (Files_missing_roots slash_join sample_lstat ["nowhere"; "gone"]).
  intros root Hroot. exists "no such file or directory".
  apply elem_of_cons in Hroot as [->|Hroot]; [reflexivity|].
  apply list_elem_of_singleton in Hroot as ->. reflexivity.
Defined.

(** X20.  [filepath.Walk] with the function literal of [Files] returns no
    error and does not panic, from whatever root and on whatever the file
    system holds there; it only appends to [files] and to standard
    output. *)
Theorem Walk_returns_nil
    (Join : string → string → string) (root : string)
    (found : lstat_result) (w : world) :
  ∃ listed printed,
    Walk Join Files_walkFn root found w
    = Ret (None, mkWorld (files w ++ listed) (stdout w ++ printed)).
Proof. eexists _, _. apply Walk_Files_walkFn. Qed.

(** ** cksum: invariants of the interleavings *)

Lemma cksum_pending_app ws1 ws2 :
  cksum.pending (ws1 ++ ws2) = cksum.pending ws1 ++ cksum.pending ws2.
Proof.
  induction ws1 as [|[p pc] ws1 IH]; simpl; [done|].
  destruct (cksum.unsent pc); simpl; by rewrite IH.
Qed.

Lemma cksum_workers_left_app ws1 ws2 :
  cksum.workers_left (ws1 ++ ws2)
  = (cksum.workers_left ws1 + cksum.workers_left ws2)%nat.
Proof. induction ws1 as [|w ws1 IH]; simpl; [done|]. rewrite IH. lia. Qed.

Lemma cksum_pending_length ws :
  (length (cksum.pending ws) ≤ length ws)%nat.
Proof.
  induction ws as [|[p pc] ws IH]; simpl; [done|].
  destruct (cksum.unsent pc); simpl; lia.
Qed.

Lemma cksum_counters_initial paths :
  cksum.counters (length paths) (cksum.initial paths).
Proof.
  unfold cksum.counters, cksum.initial. simpl.
  repeat split; try lia; done.
Qed.

Lemma cksum_counters_step outcome n s s' :
  cksum.step outcome n s s' → cksum.counters n s → cksum.counters n s'.
Proof.
  intros Hstep (Hg & Hgc & Hq & Hout & Hn & Hcol).
  unfold cksum.counters.
  destruct Hstep; simpl in *;
    rewrite ?cksum_pending_app, ?length_app in *; simpl in *;
    rewrite ?length_app in *; simpl in *.
  - repeat split; try lia; done.
  - repeat split; try lia; done.
  - repeat split; try lia. intros _.
    pose proof (cksum_pending_length ws). lia.
  - repeat split; try lia; done.
  - repeat split; try lia; done.
  - repeat split; try lia; done.
  - repeat split; try lia; done.
  - repeat split; try lia; done.
Qed.

Lemma cksum_counters_reachable outcome paths s :
  cksum.reachable outcome paths s → cksum.counters (length paths) s.
Proof.
  unfold cksum.reachable. revert s.
  apply rtc_ind_r; [apply cksum_counters_initial|].
  intros s s' _ Hstep IH. by eapply cksum_counters_step.
Qed.

Lemma cksum_steps_left_step outcome n s s' :
  cksum.step outcome n s s' →
  (cksum.steps_left n s' < cksum.steps_left n s)%nat.
Proof.
  intros Hstep. unfold cksum.steps_left.
  destruct Hstep; simpl; rewrite ?cksum_workers_left_app; simpl; lia.
Qed.

Lemma cksum_find_other (ws : list (string * cksum.worker_pc)) :
  (∀ w, w ∈ ws → cksum.at_send w.2 = true)
  ∨ ∃ ws1 p pc ws2, ws = ws1 ++ (p, pc) :: ws2 ∧ cksum.at_send pc = false.
Proof.
  induction ws as [|[p pc] ws IH].
  - left. by intros w ?%elem_of_nil.
  - destruct (cksum.at_send pc) eqn:Hpc.
    + destruct IH as [IH|(ws1 & q & qc & ws2 & -> & Hq)].
      * left. intros w [->|Hw]%elem_of_cons; [done|by apply IH].
      * right. by exists ((p, pc) :: ws1), q, qc, ws2.
    + right. by exists [], p, pc, ws.
Qed.

Lemma cksum_pending_pos ws :
  (0 < length (cksum.pending ws))%nat →
  ∃ ws1 p pc ws2, ws = ws1 ++ (p, pc) :: ws2 ∧ cksum.unsent pc = true.
Proof.
  induction ws as [|[p pc] ws IH]; simpl; [lia|]. intros Hpos.
  destruct (cksum.unsent pc) eqn:Hpc.
  - by exists [], p, pc, ws.
  - destruct IH as (ws1 & q & qc & ws2 & -> & Hq); [done|].
    by exists ((p, pc) :: ws1), q, qc, ws2.
Qed.

(** A state has returned, or some goroutine can take a step, or all
    goroutines wait on full channels. *)
Lemma cksum_trichotomy outcome n s :
  (∀ p, ∃ o, outcome p o) → cksum.counters n s →
  cksum.main s = cksum.Returned
  ∨ (∃ s', cksum.step outcome n s s')
  ∨ cksum.all_wait s.
Proof.
  intros Hfs (Hg & Hgc & Hq & Hout & Hn & _).
  destruct s as [M ws q g out]. simpl in *.
  destruct M as [[|p todo]|p todo|i|].
  - right; left. eexists. apply cksum.step_range_end.
  - destruct (decide (g < 100)%nat) as [Hlt|Hge].
    { right; left. eexists. by apply cksum.step_guard. }
    destruct (cksum_find_other ws) as [Hall|(ws1 & r & rc & ws2 & -> & Hrc)].
    + destruct (decide (length q < 100)%nat) as [Hql|Hqg].
      * destruct ws as [|[r rc] ws]; [simpl in *; lia|].
        specialize (Hall (r, rc) (list_elem_of_here _ _)).
        destruct rc; try discriminate Hall.
        right; left. eexists. by apply (cksum.step_send _ _ _ []).
      * right; right. split; [by eexists _, _|]. simpl.
        split; [lia|]. split; [lia|done].
    + right; left. destruct rc as [|ev|]; [| |].
      * destruct (Hfs r) as [o Ho]. eexists. by apply cksum.step_Hash.
      * done.
      * destruct g; [simpl in *; lia|]. eexists. apply cksum.step_release.
  - right; left. eexists. apply cksum.step_go.
  - right; left. destruct (decide (i < n)%nat) as [Hlt|Hge].
    + destruct q as [|ev q].
      * destruct (cksum_pending_pos ws)
          as (ws1 & r & rc & ws2 & -> & Hrc); [simpl in *; lia|].
        destruct rc as [|ev|]; [| |done].
        -- destruct (Hfs r) as [o Ho]. eexists. by apply cksum.step_Hash.
        -- eexists. apply cksum.step_send. simpl. lia.
      * eexists. by apply cksum.step_receive.
    + eexists. by apply cksum.step_return.
  - by left.
Qed.

Lemma cksum_all_wait_deadlocked outcome paths s :
  cksum.all_wait s → cksum.deadlocked outcome paths s.
Proof.
  intros ([p [todo HM]] & Hg & Hq & Hws) s' Hstep.
  destruct Hstep; simpl in *; simplify_eq; try lia.
  - specialize (Hws (p0, cksum.AtHash)). simpl in Hws.
    discriminate Hws. apply elem_of_middle. by left.
  - specialize (Hws (p0, cksum.AtRelease)). simpl in Hws.
    discriminate Hws. apply elem_of_middle. by left.
Qed.

Lemma cksum_all_wait_many n s :
  cksum.counters n s → cksum.all_wait s → (200 < n)%nat.
Proof.
  intros (Hg & _ & _ & _ & Hn & _) ([p [todo HM]] & Hg100 & Hq & Hws).
  rewrite HM in *. simpl in *.
  assert (length (cksum.pending (cksum.workers s))
          = length (cksum.workers s)) as Hp.
  { clear -Hws. induction (cksum.workers s) as [|[r rc] ws IH]; [done|].
    simpl. specialize (Hws (r, rc) (list_elem_of_here _ _)) as Hrc.
    destruct rc; try discriminate Hrc. simpl. f_equal. apply IH.
    intros w Hw. apply Hws. by apply list_elem_of_further. }
  lia.
Qed.

Lemma cksum_runs_on outcome paths :
  (∀ p, ∃ o, outcome p o) →
  ∀ s, cksum.reachable outcome paths s →
       ∃ s', rtc (cksum.step outcome (length paths)) s s'
             ∧ (cksum.main s' = cksum.Returned ∨ cksum.all_wait s').
Proof.
  intros Hfs s. remember (cksum.steps_left (length paths) s) as k eqn:Hk.
  revert s Hk. induction k as [k IH] using lt_wf_ind. intros s -> Hreach.
  destruct (cksum_trichotomy outcome (length paths) s Hfs)
    as [HM|[[s1 Hstep]|Hw]].
  - by eapply cksum_counters_reachable.
  - exists s. split; [done|by left].
  - destruct (IH _ (cksum_steps_left_step _ _ _ _ Hstep) s1 eq_refl)
      as (s' & Hrun & Hend).
    + eapply rtc_r; [exact Hreach|exact Hstep].
    + exists s'. split; [by eapply rtc_l|done].
  - exists s. split; [done|by right].
Qed.

Lemma cksum_accounted_initial fs paths :
  cksum.accounted fs paths (cksum.initial paths).
Proof.
  split; simpl.
  - by intros p ev ?%elem_of_nil.
  - exists [], []. simpl. by rewrite !app_nil_r.
Qed.

Lemma cksum_pending_middle ws1 p pc ws2 :
  cksum.pending (ws1 ++ (p, pc) :: ws2)
  = cksum.pending ws1
    ++ (if cksum.unsent pc then [p] else []) ++ cksum.pending ws2.
Proof. rewrite cksum_pending_app. simpl. by destruct (cksum.unsent pc). Qed.

Lemma cksum_accounted_step fs paths n s s' :
  cksum.step (steady fs) n s s' →
  cksum.accounted fs paths s → cksum.accounted fs paths s'.
Proof.
  intros Hstep [Hev (queued & printed & Hq & Hout & Hperm)].
  destruct Hstep; simpl in *.
  - split; [done|]. by exists queued, printed.
  - split.
    + intros r ev [Hin|Hin]%elem_of_app; [by apply Hev|].
      by apply list_elem_of_singleton in Hin.
    + exists queued, printed. simpl. split; [done|]. split; [done|].
      rewrite Hperm, cksum_pending_app. simpl. solve_Permutation.
  - split; [done|]. by exists queued, printed.
  - split; [done|]. destruct queued as [|r queued]; [done|].
    injection Hq as -> ->. exists queued, (printed ++ [r]). simpl.
    split; [done|]. split; [by rewrite Hout, fmap_app|].
    rewrite Hperm. solve_Permutation.
  - split; [done|]. by exists queued, printed.
  - split.
    + intros r ev [Heq|Hin]%elem_of_middle.
      * simplify_eq. unfold steady in *. by subst.
      * apply Hev. apply elem_of_middle. by right.
    + exists queued, printed. simpl. split; [done|]. split; [done|].
      rewrite Hperm, !cksum_pending_middle. done.
  - split.
    + intros r ev' [Heq|Hin]%elem_of_middle; [done|].
      apply Hev. apply elem_of_middle. by right.
    + exists (queued ++ [p]), printed. simpl.
      rewrite (Hev p ev) by (apply elem_of_middle; by left).
      split; [by rewrite Hq, fmap_app|]. split; [done|].
      rewrite Hperm, !cksum_pending_middle. simpl. solve_Permutation.
  - split.
    + intros r ev Hin. apply Hev. apply elem_of_middle. by right.
    + exists queued, printed. simpl. split; [done|]. split; [done|].
      rewrite Hperm, cksum_pending_middle, cksum_pending_app. done.
Qed.

Lemma cksum_accounted_reachable fs paths s :
  cksum.reachable (steady fs) paths s → cksum.accounted fs paths s.
Proof.
  unfold cksum.reachable. revert s.
  apply rtc_ind_r; [apply cksum_accounted_initial|].
  intros s s' _ Hstep IH. by eapply cksum_accounted_step.
Qed.

(** ** cksum: what main does *)



(** X22.  On at most 200 paths [cksum] never deadlocks: from every state
    it can reach, some interleaving leads to its return, and no run has
    more than [6 * len(files) + 2] steps. *)
Theorem cksum_returns_up_to_200
    (outcome : string → open_result → Prop) (paths : list string) :
  (length paths ≤ 200)%nat → (∀ p, ∃ o, outcome p o) →
  (∀ s, cksum.reachable outcome paths s →
        ∃ s', rtc (cksum.step outcome (length paths)) s s'
              ∧ cksum.main s' = cksum.Returned)
  ∧ (∀ k s, nsteps (cksum.step outcome (length paths)) k
              (cksum.initial paths) s →
            (k ≤ 6 * length paths + 2)%nat).
Proof.
  intros Hlen Hfs. split.
  - intros s Hreach.
    destruct (cksum_runs_on outcome paths Hfs s Hreach)
      as (s' & Hrun & [HM|Hw]); [by exists s'|].
    assert (cksum.reachable outcome paths s') as Hreach'
      by (unfold cksum.reachable in *; by etrans).
    apply cksum_counters_reachable in Hreach'.
    pose proof (cksum_all_wait_many _ _ Hreach' Hw). lia.
  - intros k s Hrun.
    assert (k ≤ cksum.steps_left (length paths) (cksum.initial paths))%nat
      as Hk.
    { clear -Hrun. induction Hrun as [|k s s1 s' Hstep _ IH]; [lia|].
      apply cksum_steps_left_step in Hstep. lia. }
    unfold cksum.steps_left, cksum.initial in Hk. simpl in Hk. lia.
Qed.

Lemma steady_answers fs : ∀ p, ∃ o, steady fs p o.
Proof. intros p. by exists (fs p). Qed.

Lemma cksum_returns_up_to_200_witness :
  (∀ s, cksum.reachable (steady fs_abc) ["a"; "b"] s →
        ∃ s', rtc (cksum.step (steady fs_abc) (length ["a"; "b"])) s s'
              ∧ cksum.main s' = cksum.Returned)
  ∧ (∀ k s, nsteps (cksum.step (steady fs_abc) (length ["a"; "b"])) k
              (cksum.initial ["a"; "b"]) s →
            (k ≤ 6 * length ["a"; "b"] + 2)%nat).
Proof.
  apply (cksum_returns_up_to_200 (steady fs_abc) ["a"; "b"]).
  - simpl. lia.
  - apply steady_answers.
Defined.

(** X23.  On more than 200 paths [cksum] never returns: the first 100
    goroutines fill [hashesQueu], which the main goroutine does not read
    before its first loop has ended, the next 100 wait to send to it with
    [guard] full, and the main goroutine waits to send to [guard].  No
    state it can reach has returned, and from every state it can reach
    some interleaving leads to a state in which no goroutine can take a
    step. *)
Theorem cksum_deadlocks_beyond_200
    (outcome : string → open_result → Prop) (paths : list string) :
  (200 < length paths)%nat → (∀ p, ∃ o, outcome p o) →
  ∀ s, cksum.reachable outcome paths s →
       cksum.main s ≠ cksum.Returned
       ∧ ∃ s', rtc (cksum.step outcome (length paths)) s s'
               ∧ cksum.deadlocked outcome paths s'.
Proof.
  intros Hlen Hfs.
  assert (Hnever : ∀ s, cksum.reachable outcome paths s →
                        cksum.main s ≠ cksum.Returned).
  { intros s Hreach HM.
    destruct (cksum_counters_reachable _ _ _ Hreach)
      as (_ & _ & _ & _ & _ & Hcol).
    rewrite HM in Hcol. specialize (Hcol eq_refl). lia. }
  intros s Hreach. split; [by apply Hnever|].
  destruct (cksum_runs_on outcome paths Hfs s Hreach)
    as (s' & Hrun & [HM|Hw]).
  - destruct (Hnever s'); [unfold cksum.reachable in *; by etrans|done].
  - exists s'. split; [done|]. by apply cksum_all_wait_deadlocked.
Qed.

Lemma cksum_deadlocks_beyond_200_witness :
  let s := cksum.initial (replicate 201 "f") in
  cksum.main s ≠ cksum.Returned
  ∧ ∃ s', rtc (cksum.step any_answer (length (replicate 201 "f"))) s s'
          ∧ cksum.deadlocked any_answer (replicate 201 "f") s'.
Proof.
  apply (cksum_deadlocks_beyond_200 any_answer (replicate 201 "f")).
  - rewrite length_replicate. lia.
  - intros p. by exists (OpenError "").
  - apply rtc_refl.
Defined.


(** [cksum] on one path, run to its return. *)
Lemma cksum_one_path fs p :
  cksum.reachable (steady fs) [p]
    (cksum.St cksum.Returned [] [] 0 [cksum.print (cksum.event fs p)]).
Proof.
  unfold cksum.reachable, cksum.initial.
  eapply rtc_l; [apply cksum.step_guard; lia|].
  eapply rtc_l; [apply cksum.step_go|]. simpl.
  eapply rtc_l; [apply cksum.step_range_end|].
  eapply rtc_l;
    [apply (cksum.step_Hash _ _ (fs p) (cksum.Receive 0) []); reflexivity|].
  eapply rtc_l;
    [apply (cksum.step_send _ _ (cksum.Receive 0) []); simpl; lia|]. simpl.
  eapply rtc_l; [apply (cksum.step_release _ _ (cksum.Receive 0) [])|]. simpl.
  eapply rtc_l; [apply cksum.step_receive; simpl; lia|]. simpl.
  eapply rtc_l; [apply cksum.step_return; simpl; lia|].
  apply rtc_refl.
Qed.


(** The two lines of [cksum]: for a file holding "abc", and for a file
    that cannot be opened. *)
Example cksum_lines :
  cksum.print (cksum.event fs_abc "a")
  = "a9993e364706816aba3e25717850c26c9cd0d89d" +:+ cksum.tab +:+ "a"
    +:+ cksum.newline
  ∧ cksum.print (cksum.event fs_abc "b")
    = "ERROR: no such file or directory" +:+ cksum.newline.
Proof. split; vm_compute; reflexivity. Qed.

(** ** HashAll: the goroutines alive *)

(** In the revision with [sem], a goroutine started alone and run up to
    its [wg.Done()] has given its slot back. *)
Lemma HashAll_bounded_run_to_Done outcome p o k : ∀ rest ws g r,
  outcome p o →
  ∃ r', rtc (step HashAll_bounded outcome)
          (St (Range (replicate k p ++ rest)) ws 0 g false r)
          (St (Range rest) (ws ++ replicate k (p, AtDone)) 0 (k + g) false r').
Proof.
  induction k as [|k IH]; intros rest ws g r Ho; simpl.
  - exists r. rewrite app_nil_r. apply rtc_refl.
  - destruct (IH rest (ws ++ [(p, AtDone)]) (S g) (<[p := Hash p o]> r) Ho)
      as [r' Hrun].
    exists r'.
    eapply rtc_l; [apply step_Add|]. simpl.
    eapply rtc_l; [apply (step_send _ _ 100%nat); [reflexivity|lia]|].
    eapply rtc_l; [apply step_go|].
    eapply rtc_l; [apply (step_Hash _ _ o _ ws _ []); exact Ho|].
    eapply rtc_l; [apply (step_Lock _ _ _ ws _ _ [])|].
    eapply rtc_l; [apply (step_store _ _ _ ws _ _ [])|].
    eapply rtc_l; [apply (step_Unlock _ _ _ ws _ [])|]. simpl.
    eapply rtc_l; [apply (step_receive _ _ 100%nat _ ws _ []); reflexivity|].
    replace (S (k + g)) with (k + S g)%nat by lia.
    replace (ws ++ (p, AtDone) :: replicate k (p, AtDone))
      with ((ws ++ [(p, AtDone)]) ++ replicate k (p, AtDone))
      by (by rewrite <-app_assoc).
    exact Hrun.
Qed.

Lemma HashAll_bounded_starts outcome p m : ∀ rest ws n g r,
  (n + m ≤ 100)%nat →
  rtc (step HashAll_bounded outcome)
    (St (Range (replicate m p ++ rest)) ws n g false r)
    (St (Range rest) (ws ++ replicate m (p, AtHash)) (m + n) (m + g) false r).
Proof.
  induction m as [|m IH]; intros rest ws n g r Hle; simpl.
  - rewrite app_nil_r. apply rtc_refl.
  - eapply rtc_l; [apply step_Add|]. simpl.
    eapply rtc_l; [apply (step_send _ _ 100%nat); [reflexivity|lia]|].
    eapply rtc_l; [apply step_go|].
    replace (S (m + n)) with (m + S n)%nat by lia.
    replace (S (m + g)) with (m + S g)%nat by lia.
    replace (ws ++ (p, AtHash) :: replicate m (p, AtHash))
      with ((ws ++ [(p, AtHash)]) ++ replicate m (p, AtHash))
      by (by rewrite <-app_assoc).
    apply IH. lia.
Qed.

Lemma count_replicate f p pc k :
  count f (replicate k (p, pc)) = if f pc then k else 0%nat.
Proof.
  induction k as [|k IH]; simpl; [by destruct (f pc)|].
  rewrite IH. by destruct (f pc).
Qed.

(** X25.  [sem] bounds the goroutines that hash, not the goroutines
    alive: a goroutine gives its slot back before its [wg.Done()], so on
    [k + 100] paths the revision with [sem] can have [k + 100] goroutines
    alive, 100 of them hashing and [k] about to call [wg.Done()]. *)
Theorem HashAll_bounded_goroutines_alive
    (outcome : string → open_result → Prop) (p : string) (o : open_result)
    (k : nat) :
  outcome p o →
  ∃ s, reachable HashAll_bounded outcome (replicate (k + 100) p) s
       ∧ length (workers s) = (k + 100)%nat
       ∧ count hashing (workers s) = 100%nat
       ∧ count holds_slot (workers s) = 100%nat.
Proof.
  intros Ho.
  destruct (HashAll_bounded_run_to_Done outcome p o k
              (replicate 100 p) [] 0 ∅ Ho) as [r' Hrun].
  eexists. split.
  - unfold reachable, initial. rewrite replicate_add.
    etrans; [exact Hrun|].
    rewrite <-(app_nil_r (replicate 100 p)).
    apply (HashAll_bounded_starts outcome p 100 [] _ 0). lia.
  - simpl. rewrite length_app, !length_replicate, !count_app.
    rewrite !count_replicate. simpl. split; [done|]. split; lia.
Qed.

Lemma HashAll_bounded_goroutines_alive_witness :
  ∃ s, reachable HashAll_bounded any_answer (replicate (5 + 100) "f") s
       ∧ length (workers s) = (5 + 100)%nat
       ∧ count hashing (workers s) = 100%nat
       ∧ count holds_slot (workers s) = 100%nat.
Proof.
  apply (HashAll_bounded_goroutines_alive any_answer "f" (OpenError "") 5).
  exact I.
Defined.
